(** * Contact-form backend: rate limiter and request handler

    A shallow embedding of [src/index.mjs].  The asynchronous functions of the
    source become trees of effects ([prog]): reading the clock, sending a
    conditional [PutItem] to the table, sending an email, logging.  The same
    trees are run sequentially against an environment ([run]) and interleaved
    in a pool of concurrent calls sharing one table ([pool_step]). *)

From stdpp Require Import gmap strings list fin_maps pretty.
From Stdlib Require Import ZArith Lia Ascii.

Local Open Scope Z_scope.
Set Warnings "-register-all".

(** ** Errors, commands and effect trees *)

(** A thrown JavaScript error, as far as the source looks at it ([e?.name]). *)
Record error := Error { err_name : string }.

Global Instance error_eq_dec : EqDecision error.
Proof. solve_decision. Defined.

(** [new PutItemCommand({TableName, Item: {pk, ttl}, ConditionExpression})];
    the number attribute [ttl] is kept as the number it prints. *)
Record PutItemCommand := {
  TableName : option string;
  Item_pk : string;
  Item_ttl : Z;
  ConditionExpression : string;
}.

(** [new SendEmailCommand({...})], with the fields the handler fills in. *)
Record SendEmailCommand := {
  FromEmailAddress : option string;
  ToAddresses : list string;
  ReplyToAddresses : list string;
  Subject : string;
  BodyText : string;
}.

(** The code of an [async] function: what it does next, and how it goes on
    with the answer.  A rejected [send] hands the error to the continuation. *)
Inductive prog (A : Type) : Type :=
| Ret (a : A)
| Throw (e : error)
| DateNow (k : Z → prog A)
| DdbSend (cmd : PutItemCommand) (k : error + unit → prog A)
| SesSend (cmd : SendEmailCommand) (k : error + unit → prog A)
| ConsoleError (label : string) (e : error) (k : prog A).

Arguments Ret {A} a.
Arguments Throw {A} e.
Arguments DateNow {A} k.
Arguments DdbSend {A} cmd k.
Arguments SesSend {A} cmd k.
Arguments ConsoleError {A} label e k.

Fixpoint bind {A B} (p : prog A) (f : A → prog B) : prog B :=
  match p with
  | Ret a => f a
  | Throw e => Throw e
  | DateNow k => DateNow (λ ms, bind (k ms) f)
  | DdbSend cmd k => DdbSend cmd (λ r, bind (k r) f)
  | SesSend cmd k => SesSend cmd (λ r, bind (k r) f)
  | ConsoleError l e k => ConsoleError l e (bind k f)
  end.

(** [try { p } catch (e) { h e }]. *)
Fixpoint try_catch {A} (p : prog A) (h : error → prog A) : prog A :=
  match p with
  | Ret a => Ret a
  | Throw e => h e
  | DateNow k => DateNow (λ ms, try_catch (k ms) h)
  | DdbSend cmd k => DdbSend cmd (λ r, try_catch (k r) h)
  | SesSend cmd k => SesSend cmd (λ r, try_catch (k r) h)
  | ConsoleError l e k => ConsoleError l e (try_catch k h)
  end.

Global Instance prog_ret : MRet prog := @Ret.
Global Instance prog_bind : MBind prog := λ A B f p, bind p f.

(** [Date.now()], in milliseconds. *)
Definition Date_now : prog Z := DateNow Ret.

Definition settle (r : error + unit) : prog unit :=
  match r with inl e => Throw e | inr u => Ret u end.

(** [await ddb.send(cmd)] and [await ses.send(cmd)]. *)
Definition ddb_send (cmd : PutItemCommand) : prog unit := DdbSend cmd settle.
Definition ses_send (cmd : SendEmailCommand) : prog unit := SesSend cmd settle.

Definition console_error (label : string) (e : error) : prog unit :=
  ConsoleError label e (Ret tt).

(** ** The table *)

(** The rate table maps a partition key [pk] to its [ttl] attribute.  A put
    under the condition [attribute_not_exists(pk)] creates the item when no
    item has the key and is refused otherwise.  The table never loses a key
    here: the sweep of expired items is the store's own, and an item is due
    only after its window is over. *)
Definition table_put (σ : gmap string Z) (cmd : PutItemCommand)
  : (error + unit) * gmap string Z :=
  if decide (ConditionExpression cmd = "attribute_not_exists(pk)") then
    match σ !! Item_pk cmd with
    | Some _ => (inl (Error "ConditionalCheckFailedException"), σ)
    | None => (inr tt, <[Item_pk cmd := Item_ttl cmd]> σ)
    end
  else (inl (Error "ValidationException"), σ).

(** ** The rate limiter *)

Section Limiter.

(** [process.env.RATE_TABLE] and [Number(process.env.IP_LIMIT_PER_HOUR || 5)],
    the latter a whole number. *)
Variable TABLE : option string.
Variable LIMIT : Z.

(** [`ip#${ip}#hour#${hour}#slot#${i}`] *)
Definition slot_key (ip : string) (hour i : Z) : string :=
  "ip#" +:+ ip +:+ "#hour#" +:+ pretty hour +:+ "#slot#" +:+ pretty i.

Definition consume (pk : string) (ttlSeconds : Z) : prog bool :=
  ms ← Date_now;
  let now := ms / 1000 in
  let ttl := now + ttlSeconds in
  let cmd := {| TableName := TABLE; Item_pk := pk; Item_ttl := ttl;
                ConditionExpression := "attribute_not_exists(pk)" |} in
  try_catch
    (ddb_send cmd ≫= λ _, Ret true)
    (λ e, if decide (err_name e = "ConditionalCheckFailedException")
          then Ret false
          else Throw e).

(** The [for (let i = 1; i <= LIMIT; i++)] loop, at index [i] with [n]
    iterations left. *)
Fixpoint for_slots (ip : string) (hour ttlSeconds : Z) (n : nat) (i : Z)
  : prog bool :=
  match n with
  | O => Ret false
  | S n' =>
      let key := slot_key ip hour i in
      b ← consume key ttlSeconds;
      if b : bool then Ret true else for_slots ip hour ttlSeconds n' (i + 1)
  end.

Definition checkRateLimit (ip : string) : prog bool :=
  ms ← Date_now;
  let now := ms / 1000 in
  let hour := now / 3600 in
  let ttlSeconds := 3700 in
  for_slots ip hour ttlSeconds (Z.to_nat LIMIT) 1.

End Limiter.

(** ** Running one call against an environment *)

(** What a run lets the outside see, in order. *)
Inductive obs :=
| ObsNow (ms : Z)
| ObsPut (cmd : PutItemCommand) (r : error + unit)
| ObsMail (cmd : SendEmailCommand) (r : error + unit)
| ObsLog (label : string) (e : error).

(** The outside world, indexed by the number of effects performed so far:
    what the clock shows, and whether the table or the mail service fails. *)
Record Env := {
  clock : nat → Z;
  ddb_fault : nat → option error;
  ses_fault : nat → option error;
}.

Definition ddb_answer (env : Env) (n : nat) (σ : gmap string Z)
    (cmd : PutItemCommand) : (error + unit) * gmap string Z :=
  match ddb_fault env n with
  | Some e => (inl e, σ)
  | None => table_put σ cmd
  end.

Definition ses_answer (env : Env) (n : nat) : error + unit :=
  match ses_fault env n with
  | Some e => inl e
  | None => inr tt
  end.

Record outcome (A : Type) := Outcome {
  result : error + A;
  final : gmap string Z;
  events : list obs;
}.
Arguments Outcome {A} result final events.
Arguments result {A} o.
Arguments final {A} o.
Arguments events {A} o.

Definition seen {A} (o : obs) (r : outcome A) : outcome A :=
  Outcome (result r) (final r) (o :: events r).

(** [run env p σ n]: run [p] to the end on table [σ], [n] effects having
    happened before. *)
Fixpoint run {A} (env : Env) (p : prog A) (σ : gmap string Z) (n : nat)
  : outcome A :=
  match p with
  | Ret a => Outcome (inr a) σ []
  | Throw e => Outcome (inl e) σ []
  | DateNow k =>
      let ms := clock env n in
      seen (ObsNow ms) (run env (k ms) σ (S n))
  | DdbSend cmd k =>
      let '(r, σ') := ddb_answer env n σ cmd in
      seen (ObsPut cmd r) (run env (k r) σ' (S n))
  | SesSend cmd k =>
      let r := ses_answer env n in
      seen (ObsMail cmd r) (run env (k r) σ (S n))
  | ConsoleError l e k =>
      seen (ObsLog l e) (run env k σ (S n))
  end.

(** The keys of the conditional writes of a run, and its emails. *)
Definition put_keys (tr : list obs) : list string :=
  omap (λ o, match o with ObsPut cmd _ => Some (Item_pk cmd) | _ => None end) tr.

Definition mails (tr : list obs) : list SendEmailCommand :=
  omap (λ o, match o with ObsMail cmd _ => Some cmd | _ => None end) tr.

Definition no_ddb_fault (env : Env) : Prop := ∀ n, ddb_fault env n = None.

(** ** Concurrent calls sharing the table *)

(** A call of [checkRateLimit] in flight: its identity, the window it read
    (none before its first look at the clock) and the code left to run. *)
Record call := Call {
  call_ip : string;
  call_hour : option Z;
  call_code : prog bool;
}.

(** A slot key created by a call of identity [made_ip] in window [made_hour]. *)
Record creation := Creation {
  made_ip : string;
  made_hour : option Z;
  made_pk : string;
}.

Global Instance creation_eq_dec : EqDecision creation.
Proof. solve_decision. Defined.

Definition window_of (ms : Z) : Z := ms / 1000 / 3600.

(** One effect of one call.  The clock may show anything; a write is either
    arbitrated by the table or fails without effect. *)
Inductive call_step :
  gmap string Z → call → gmap string Z → call → list creation → Prop :=
| step_now σ ip oh k ms :
    call_step σ (Call ip oh (DateNow k))
              σ (Call ip (Some (default (window_of ms) oh)) (k ms)) []
| step_put_ok σ ip oh cmd k σ' :
    table_put σ cmd = (inr tt, σ') →
    call_step σ (Call ip oh (DdbSend cmd k))
              σ' (Call ip oh (k (inr tt))) [Creation ip oh (Item_pk cmd)]
| step_put_fail σ ip oh cmd k e σ' :
    table_put σ cmd = (inl e, σ') →
    call_step σ (Call ip oh (DdbSend cmd k)) σ' (Call ip oh (k (inl e))) []
| step_put_fault σ ip oh cmd k e :
    call_step σ (Call ip oh (DdbSend cmd k)) σ (Call ip oh (k (inl e))) []
| step_mail σ ip oh cmd k r :
    call_step σ (Call ip oh (SesSend cmd k)) σ (Call ip oh (k r)) []
| step_log σ ip oh l e k :
    call_step σ (Call ip oh (ConsoleError l e k)) σ (Call ip oh k) [].

Record pool := Pool {
  pool_table : gmap string Z;
  pool_calls : list call;
  pool_created : list creation;
}.

(** Any call that is not finished may take the next step. *)
Inductive pool_step : pool → pool → Prop :=
| pool_step_at σ cs log t c σ' c' new :
    cs !! t = Some c →
    call_step σ c σ' c' new →
    pool_step (Pool σ cs log) (Pool σ' (<[t := c']> cs) (log ++ new)).

Definition returned_true (p : prog bool) : bool :=
  match p with Ret true => true | _ => false end.

(** Calls of identity [ip] in window [w] that have returned [true]. *)
Definition won (ip : string) (w : Z) (c : call) : bool :=
  bool_decide (call_ip c = ip) && bool_decide (call_hour c = Some w)
  && returned_true (call_code c).

Definition wins (ip : string) (w : Z) (cs : list call) : nat :=
  length (filter (λ c, won ip w c) cs).

(** Slot keys created for identity [ip] in window [w]. *)
Definition made_for (ip : string) (w : Z) (m : creation) : bool :=
  bool_decide (made_ip m = ip) && bool_decide (made_hour m = Some w).

Definition creations (ip : string) (w : Z) (log : list creation) : list string :=
  made_pk <$> filter (λ m, made_for ip w m) log.

(** ** The request handler *)

(** The API Gateway event, in both the HTTP API v2 and the REST shape. *)
Record Http := { http_method : option string; http_sourceIp : option string }.
Record Identity := { identity_sourceIp : option string }.
Record RequestContext := { http : option Http; identity : option Identity }.
Record Event := {
  requestContext : option RequestContext;
  httpMethod : option string;
  body : option string;
}.

Record Response := {
  statusCode : Z;
  headers : list (string * string);
  resp_body : string;
}.

(** Optional chaining: [o ?> f] is [o?.f]. *)
Definition chain {A B} (o : option A) (f : A → option B) : option B :=
  match o with
  | Some a => f a
  | None => None
  end.
Infix "?>" := chain (at level 40, left associativity).

(** [a || b] on values that are strings or [undefined]. *)
Definition js_or (a b : option string) : option string :=
  match a with
  | Some s => if decide (s = "") then b else Some s
  | None => b
  end.

(** [!x] on a value that is a string or [undefined]. *)
Definition js_not (a : option string) : bool :=
  match a with
  | Some s => bool_decide (s = "")
  | None => true
  end.

(** [event.requestContext?.http?.sourceIp || event.requestContext?.identity?.sourceIp || "0.0.0.0"] *)
Definition ipFromEvent (event : Event) : string :=
  default "0.0.0.0"
    (js_or (js_or (Some event ?> requestContext ?> http ?> http_sourceIp)
                  (Some event ?> requestContext ?> identity ?> identity_sourceIp))
           (Some "0.0.0.0")).

Definition lift {A} (r : error + A) : prog A :=
  match r with inl e => Throw e | inr a => Ret a end.

Section Handler.

Variable TABLE : option string.
Variable LIMIT : Z.
Variable FROM_EMAIL : option string.
(** [process.env.ALLOWED_ORIGIN || "<ADD WEBSITE HERE>"] *)
Variable ALLOWED_ORIGIN : string.

(** JavaScript numbers, with the two things the handler can observe of
    one: whether it is truthy and how it prints. *)
Variable number : Type.
Variable Number_truthy : number → bool.
Variable Number_toString : number → string.

(** What [JSON.parse] returns. *)
Inductive json :=
| JNull
| JBool (b : bool)
| JNumber (x : number)
| JString (s : string)
| JArray (l : list json)
| JObject (fields : list (string * json)).

(** The built-ins [JSON.parse] and [String.prototype.trim]. *)
Variable JSON_parse : string → error + json.
Variable trim : string → string.

(** The own property [k] of an object, if it has one. *)
Fixpoint own (fields : list (string * json)) (k : string) : option json :=
  match fields with
  | [] => None
  | (k', v) :: rest => if decide (k' = k) then Some v else own rest k
  end.

(** [body.k] for a field name that no prototype defines: [undefined] is
    [None], and reading a property of [null] throws. *)
Definition get (b : json) (k : string) : error + option json :=
  match b with
  | JNull => inl (Error "TypeError")
  | JObject fields => inr (own fields k)
  | _ => inr None
  end.

Definition truthy (v : option json) : bool :=
  match v with
  | None | Some JNull => false
  | Some (JBool b) => b
  | Some (JNumber x) => Number_truthy x
  | Some (JString s) => negb (bool_decide (s = ""))
  | Some (JArray _) | Some (JObject _) => true
  end.

(** [v || ""] *)
Definition or_empty (v : option json) : json :=
  match v with
  | Some j => if truthy v then j else JString ""
  | None => JString ""
  end.

(** [String(v)].  An array joins its elements with commas, [null] elements
    printing as nothing; an object prints as [[object Object]] unless a
    [toString] field hides the inherited method, which throws. *)
Fixpoint to_String (v : json) : error + string :=
  match v with
  | JNull => inr "null"
  | JBool b => inr (if b then "true" else "false")
  | JNumber x => inr (Number_toString x)
  | JString s => inr s
  | JArray l =>
      (fix join (l : list json) : error + string :=
         match l with
         | [] => inr ""
         | x :: rest =>
             match (match x with JNull => inr "" | _ => to_String x end) with
             | inl e => inl e
             | inr s =>
                 match rest with
                 | [] => inr s
                 | _ => match join rest with
                        | inl e => inl e
                        | inr r => inr (s +:+ "," +:+ r)
                        end
                 end
             end
         end) l
  | JObject fields =>
      match own fields "toString" with
      | Some _ => inl (Error "TypeError")
      | None => inr "[object Object]"
      end
  end.

(** [String(body.k || "").trim()] *)
Definition field (b : json) (k : string) : error + string :=
  match get b k with
  | inl e => inl e
  | inr v => match to_String (or_empty v) with
             | inl e => inl e
             | inr s => inr (trim s)
             end
  end.

Definition corsHeaders : list (string * string) :=
  [ ("Access-Control-Allow-Origin", ALLOWED_ORIGIN);
    ("Access-Control-Allow-Headers", "Content-Type");
    ("Access-Control-Allow-Methods", "POST,OPTIONS");
    ("Vary", "Origin") ].

Definition handler (event : Event) : prog Response :=
  let headers := corsHeaders in
  let method :=
    js_or (Some event ?> requestContext ?> http ?> http_method) (httpMethod event) in
  if decide (method = Some "OPTIONS") then
    Ret {| statusCode := 204; headers := headers; resp_body := "" |}
  else
  try_catch
    (if js_not TABLE then
       Ret {| statusCode := 500; headers := headers;
              resp_body := "RATE_TABLE not set" |}
     else if js_not FROM_EMAIL then
       Ret {| statusCode := 500; headers := headers;
              resp_body := "FROM_EMAIL not set" |}
     else
     parsed ← lift (JSON_parse (default "{}" (js_or (body event) (Some "{}"))));
     company ← lift (field parsed "company");
     if negb (bool_decide (company = "")) then
       Ret {| statusCode := 200; headers := headers; resp_body := "OK" |}
     else
     name ← lift (field parsed "name");
     email ← lift (field parsed "email");
     message ← lift (field parsed "message");
     if bool_decide (name = "") || bool_decide (email = "")
        || bool_decide (message = "") then
       Ret {| statusCode := 400; headers := headers;
              resp_body := "Missing fields" |}
     else
     let ip := ipFromEvent event in
     isAllowed ← checkRateLimit TABLE LIMIT ip;
     if negb isAllowed then
       Ret {| statusCode := 429; headers := headers;
              resp_body := "Too many requests" |}
     else
     ses_send {| FromEmailAddress := FROM_EMAIL;
                 ToAddresses := ["cloudcanvas.team@gmail.com"];
                 ReplyToAddresses := [email];
                 Subject := "New CloudCanvas message from " +:+ name;
                 BodyText := message |};;
     Ret {| statusCode := 200; headers := headers; resp_body := "OK" |})
    (λ err,
       console_error "contact error:" err;;
       Ret {| statusCode := 500; headers := headers;
              resp_body := "Server error" |}).

End Handler.

Arguments JNull {number}.
Arguments JBool {number} b.
Arguments JNumber {number} x.
Arguments JString {number} s.
Arguments JArray {number} l.
Arguments JObject {number} fields.

(** ** The parts of a request the handler decides on *)

(** [event.requestContext?.http?.method || event.httpMethod] *)
Definition request_method (event : Event) : option string :=
  js_or (Some event ?> requestContext ?> http ?> http_method) (httpMethod event).

(** [event.body || "{}"] *)
Definition request_body (event : Event) : string :=
  default "{}" (js_or (body event) (Some "{}")).

(** Both environment variables the handler insists on are set. *)
Definition configured (TABLE FROM_EMAIL : option string) : Prop :=
  js_not TABLE = false ∧ js_not FROM_EMAIL = false.

Definition response (status : Z) (ALLOWED_ORIGIN : string) (text : string)
  : Response :=
  {| statusCode := status; headers := corsHeaders ALLOWED_ORIGIN;
     resp_body := text |}.

(** The [catch] block of the handler. *)
Definition on_error (ALLOWED_ORIGIN : string) (err : error) : prog Response :=
  console_error "contact error:" err;;
  Ret (response 500 ALLOWED_ORIGIN "Server error").

(** The email the handler sends. *)
Definition contact_mail (FROM_EMAIL : option string) (name email message : string)
  : SendEmailCommand :=
  {| FromEmailAddress := FROM_EMAIL;
     ToAddresses := ["cloudcanvas.team@gmail.com"];
     ReplyToAddresses := [email];
     Subject := "New CloudCanvas message from " +:+ name;
     BodyText := message |}.

(** The handler from the rate-limit check on, for a request that passed the
    honeypot and the validation. *)
Definition serve (TABLE : option string) (LIMIT : Z) (FROM_EMAIL : option string)
    (ALLOWED_ORIGIN : string) (ip name email message : string) : prog Response :=
  isAllowed ← checkRateLimit TABLE LIMIT ip;
  if negb isAllowed then Ret (response 429 ALLOWED_ORIGIN "Too many requests")
  else
  ses_send (contact_mail FROM_EMAIL name email message);;
  Ret (response 200 ALLOWED_ORIGIN "OK").

(** ** The loop of [checkRateLimit], as a relation on runs *)

(** The command [consume] builds for key [pk] when its clock shows [ms]. *)
Definition consume_cmd (TABLE : option string) (pk : string) (ms ttlSeconds : Z)
  : PutItemCommand :=
  {| TableName := TABLE; Item_pk := pk; Item_ttl := ms / 1000 + ttlSeconds;
     ConditionExpression := "attribute_not_exists(pk)" |}.

(** [probes TABLE env ip h i n m σ tr r σ']: from slot [i], with [n] slots
    left to try and [m] effects done, the loop on table [σ] produces the
    events [tr], the result [r] and the table [σ']. *)
Inductive probes (TABLE : option string) (env : Env) (ip : string) (h : Z) :
  Z → nat → nat → gmap string Z → list obs → error + bool → gmap string Z → Prop :=
| probes_end i m σ :
    probes TABLE env ip h i 0 m σ [] (inr false) σ
| probes_claim i n m σ cmd σ' :
    cmd = consume_cmd TABLE (slot_key ip h i) (clock env m) 3700 →
    ddb_answer env (S m) σ cmd = (inr tt, σ') →
    probes TABLE env ip h i (S n) m σ
           [ObsNow (clock env m); ObsPut cmd (inr tt)] (inr true) σ'
| probes_next i n m σ cmd e tr r σ' :
    cmd = consume_cmd TABLE (slot_key ip h i) (clock env m) 3700 →
    ddb_answer env (S m) σ cmd = (inl e, σ) →
    err_name e = "ConditionalCheckFailedException" →
    probes TABLE env ip h (i + 1) n (S (S m)) σ tr r σ' →
    probes TABLE env ip h i (S n) m σ
           (ObsNow (clock env m) :: ObsPut cmd (inl e) :: tr) r σ'
| probes_fail i n m σ cmd e :
    cmd = consume_cmd TABLE (slot_key ip h i) (clock env m) 3700 →
    ddb_answer env (S m) σ cmd = (inl e, σ) →
    err_name e ≠ "ConditionalCheckFailedException" →
    probes TABLE env ip h i (S n) m σ
           [ObsNow (clock env m); ObsPut cmd (inl e)] (inl e) σ.

(** The slot keys of identity [ip] in window [hour]: slots [1..LIMIT]. *)
Definition slot_keys (ip : string) (hour LIMIT : Z) : list string :=
  slot_key ip hour <$> seqZ 1 LIMIT.

(** Whether a string contains the separator [#] of the slot keys. *)
Fixpoint has_hash (s : string) : bool :=
  match s with
  | EmptyString => false
  | String c s' => bool_decide (c = "#"%char) || has_hash s'
  end.

(** ** Calls in flight *)

(** The pool in which the calls [checkRateLimit ip], one for each of [ips],
    are about to start on table [σ]. *)
Definition init_pool (TABLE : option string) (LIMIT : Z)
    (σ : gmap string Z) (ips : list string) : pool :=
  Pool σ ((λ ip, Call ip None (checkRateLimit TABLE LIMIT ip)) <$> ips) [].

(** What is left of an iteration of the loop once the table has answered
    the write for slot [i] with [r], [n] slots remaining after it. *)
Definition after_write (TABLE : option string) (ip : string) (h : Z)
    (n : nat) (i : Z) (r : error + unit) : prog bool :=
  bind (try_catch
          (bind (settle r) (λ _, Ret true))
          (λ e, if decide (err_name e = "ConditionalCheckFailedException")
                then Ret false
                else Throw e))
       (λ b : bool, if b then Ret true else for_slots TABLE ip h 3700 n (i + 1)).

(** Slot [i] is within [1..LIMIT], with [n] slots from [i] on. *)
Definition slots_left (LIMIT : Z) (i : Z) (n : nat) : Prop :=
  1 ≤ i ∧ i + Z.of_nat n = Z.of_nat (Z.to_nat LIMIT) + 1.

(** The states a call of [checkRateLimit ip] goes through: not started, at
    the head of the loop, waiting for the table, returned or failed. *)
Inductive in_flight (TABLE : option string) (LIMIT : Z) (ip : string) :
  option Z → prog bool → Prop :=
| fl_start :
    in_flight TABLE LIMIT ip None (checkRateLimit TABLE LIMIT ip)
| fl_loop h n i :
    slots_left LIMIT i n →
    in_flight TABLE LIMIT ip (Some h) (for_slots TABLE ip h 3700 n i)
| fl_write h n i ms :
    slots_left LIMIT i (S n) →
    in_flight TABLE LIMIT ip (Some h)
              (DdbSend (consume_cmd TABLE (slot_key ip h i) ms 3700)
                       (after_write TABLE ip h n i))
| fl_true h :
    in_flight TABLE LIMIT ip (Some h) (Ret true)
| fl_throw h e :
    in_flight TABLE LIMIT ip (Some h) (Throw e).

(** What holds of every pool that the calls can reach. *)
Record pool_inv (TABLE : option string) (LIMIT : Z) (p : pool) : Prop := {
  inv_calls :
    Forall (λ c, in_flight TABLE LIMIT (call_ip c) (call_hour c) (call_code c))
           (pool_calls p);
  inv_nodup : NoDup (made_pk <$> pool_created p);
  inv_in_table :
    ∀ m, m ∈ pool_created p → is_Some (pool_table p !! made_pk m);
  inv_keys :
    ∀ m, m ∈ pool_created p →
         ∃ h, made_hour m = Some h ∧ made_pk m ∈ slot_keys (made_ip m) h LIMIT;
  inv_wins :
    ∀ ip w, (wins ip w (pool_calls p)
             ≤ length (creations ip w (pool_created p)))%nat;
}.

(** ** Schedules *)

(** One scheduling decision: which call moves, what the clock shows if it
    reads it, and whether the table fails if it writes. *)
Record tick := Tick {
  tick_call : nat;
  tick_ms : Z;
  tick_fault : option error;
}.

(** The step of [call_step] that the decision [k] picks for call [c]. *)
Definition call_exec (σ : gmap string Z) (c : call) (k : tick)
  : gmap string Z * call * list creation :=
  let ip := call_ip c in
  let oh := call_hour c in
  match call_code c with
  | DateNow f =>
      (σ, Call ip (Some (default (window_of (tick_ms k)) oh)) (f (tick_ms k)), [])
  | DdbSend cmd f =>
      match tick_fault k with
      | Some e => (σ, Call ip oh (f (inl e)), [])
      | None =>
          match table_put σ cmd with
          | (inr u, σ') => (σ', Call ip oh (f (inr u)), [Creation ip oh (Item_pk cmd)])
          | (inl e, σ') => (σ', Call ip oh (f (inl e)), [])
          end
      end
  | SesSend cmd f =>
      (σ, Call ip oh (f (match tick_fault k with Some e => inl e | None => inr tt end)), [])
  | ConsoleError l e f => (σ, Call ip oh f, [])
  | Ret _ | Throw _ => (σ, c, [])
  end.

Fixpoint pool_exec (sched : list tick) (p : pool) : pool :=
  match sched with
  | [] => p
  | k :: sched' =>
      match pool_calls p !! tick_call k with
      | Some c =>
          let '(σ', c', new) := call_exec (pool_table p) c k in
          pool_exec sched'
            (Pool σ' (<[tick_call k := c']> (pool_calls p)) (pool_created p ++ new))
      | None => pool_exec sched' p
      end
  end.

(** ** Scenarios *)

Definition calm (ms : Z) : Env :=
  {| clock := λ _, ms; ddb_fault := λ _, None; ses_fault := λ _, None |}.

(** The table fails with [e] at the effect number [k]. *)
Definition outage (ms : Z) (k : nat) (e : error) : Env :=
  {| clock := λ _, ms;
     ddb_fault := λ n, if decide (n = k) then Some e else None;
     ses_fault := λ _, None |}.

Definition post_from (ip text : option string) : Event :=
  {| requestContext :=
       Some {| http := Some {| http_method := Some "POST"; http_sourceIp := ip |};
               identity := None |};
     httpMethod := None;
     body := text |}.

Definition dq : string := String "034"%char "".

(** The JSON text of an object whose values are plain strings. *)
Fixpoint members (fields : list (string * string)) : string :=
  match fields with
  | [] => ""
  | (k, v) :: rest =>
      dq +:+ k +:+ dq +:+ ":" +:+ dq +:+ v +:+ dq +:+
      (match rest with [] => "" | _ => "," +:+ members rest end)
  end.

Definition json_text (fields : list (string * string)) : string :=
  "{" +:+ members fields +:+ "}".

Definition message_fields : list (string * string) :=
  [("name", "Danyar"); ("email", "danyar@example.com");
   ("message", "Hello"); ("company", "")].
Definition bot_fields : list (string * string) :=
  [("name", "Bot"); ("email", "bot@example.com");
   ("message", "Buy"); ("company", "ACME")].
Definition blank_fields : list (string * string) :=
  [("name", "Danyar"); ("email", "danyar@example.com"); ("message", "  ")].

(** [JSON.parse] on the texts of the scenarios; it rejects all others. *)
Definition scenario_parse (text : string) : error + json Z :=
  match list_find (λ fields, json_text fields = text)
                  [[]; message_fields; bot_fields; blank_fields] with
  | Some (_, fields) => inr (JObject (prod_map id JString <$> fields))
  | None => inl (Error "SyntaxError")
  end.

Fixpoint trim_start (s : string) : string :=
  match s with
  | String c s' => if Ascii.is_space c then trim_start s' else s
  | EmptyString => EmptyString
  end.

(** [trim] on strings whose only white space is ASCII. *)
Definition scenario_trim (s : string) : string :=
  String.rev (trim_start (String.rev (trim_start s))).

Definition scenario_handler (LIMIT : Z) : Event → prog Response :=
  handler (Some "rate-limits") LIMIT (Some "noreply@example.org")
          "https://example.org" Z (λ x, bool_decide (x ≠ 0)) pretty
          scenario_parse scenario_trim.

(** Requests served one after the other on the same table. *)
Fixpoint replay (env : Env) (h : Event → prog Response) (evs : list Event)
    (σ : gmap string Z) (n : nat) : list (error + Z) * gmap string Z :=
  match evs with
  | [] => ([], σ)
  | ev :: rest =>
      let o := run env (h ev) σ n in
      let '(rs, σ') := replay env h rest (final o) (n + length (events o)) in
      (sum_map id statusCode (result o) :: rs, σ')
  end.

(** A moment in window 472222, and a caller. *)
Definition t0 : Z := 1700000000000.
Definition caller : string := "203.0.113.10".

Definition contact : Event := post_from (Some caller) (Some (json_text message_fields)).
Definition bot : Event := post_from (Some caller) (Some (json_text bot_fields)).
Definition blank : Event := post_from (Some caller) (Some (json_text blank_fields)).
Definition garbled : Event := post_from (Some caller) (Some "{oops").
Definition anonymous : Event := post_from None (Some (json_text message_fields)).

(** Two calls of one caller race for the only slot: both read the clock
    twice, then the second writes before the first. *)
Definition race : pool :=
  pool_exec [Tick 0 t0 None; Tick 1 t0 None; Tick 0 t0 None; Tick 1 t0 None;
             Tick 1 t0 None; Tick 0 t0 None]
            (init_pool (Some "rate-limits") 1 ∅ [caller; caller]).

(** ** Submissions *)

(** A request that is not a preflight, on a configured handler, whose body
    parses, whose honeypot field is empty and whose three fields are not:
    the [name], [email] and [message] the handler goes on with. *)
Definition submission (TABLE FROM_EMAIL : option string) (number : Type)
    (Number_truthy : number → bool) (Number_toString : number → string)
    (JSON_parse : string → error + json number) (trim : string → string)
    (event : Event) (name email message : string) : Prop :=
  request_method event ≠ Some "OPTIONS" ∧ configured TABLE FROM_EMAIL ∧
  ∃ parsed,
    JSON_parse (request_body event) = inr parsed ∧
    field number Number_truthy Number_toString trim parsed "company" = inr "" ∧
    field number Number_truthy Number_toString trim parsed "name" = inr name ∧
    name ≠ "" ∧
    field number Number_truthy Number_toString trim parsed "email" = inr email ∧
    email ≠ "" ∧
    field number Number_truthy Number_toString trim parsed "message" = inr message ∧
    message ≠ "".

(** The mail service answers every call, or fails every call with [e]. *)
Definition no_ses_fault (env : Env) : Prop := ∀ n, ses_fault env n = None.
Definition ses_down (env : Env) (e : error) : Prop :=
  ∀ n, ses_fault env n = Some e.

(** The mail service is down while the table works. *)
Definition mail_outage (ms : Z) (e : error) : Env :=
  {| clock := λ _, ms; ddb_fault := λ _, None; ses_fault := λ _, Some e |}.

(** A REST-shaped preflight, and a request with both addresses. *)
Definition preflight : Event :=
  {| requestContext := None; httpMethod := Some "OPTIONS"; body := Some "{oops" |}.
Definition proxied : Event :=
  {| requestContext :=
       Some {| http := Some {| http_method := Some "POST";
                               http_sourceIp := Some "198.51.100.7" |};
               identity := Some {| identity_sourceIp := Some caller |} |};
     httpMethod := None;
     body := Some (json_text message_fields) |}.

(** ** Calls one after the other *)

(** [k] calls of [checkRateLimit ip] in a row on the same table: their
    results, and the table they leave. *)
Fixpoint acquire (TABLE : option string) (LIMIT : Z) (env : Env) (ip : string)
    (k : nat) (σ : gmap string Z) (n : nat)
  : list (error + bool) * gmap string Z :=
  match k with
  | O => ([], σ)
  | S k' =>
      let o := run env (checkRateLimit TABLE LIMIT ip) σ n in
      let '(rs, σ') :=
        acquire TABLE LIMIT env ip k' (final o) (n + length (events o)) in
      (result o :: rs, σ')
  end.

(** The first [j] of the keys are in the table and the others are not. *)
Definition filled (σ : gmap string Z) (keys : list string) (j : nat) : Prop :=
  Forall (λ k, is_Some (σ !! k)) (take j keys) ∧
  Forall (λ k, σ !! k = None) (drop j keys).

(** ** Calls in flight on a table that answers *)

(** The states of a call of [checkRateLimit ip] when no write fails, with
    what the call has learnt of table [σ]: at slot [i], the keys of all
    slots before [i] are in the table. *)
Inductive probing (TABLE : option string) (LIMIT : Z) (σ : gmap string Z)
    (ip : string) : option Z → prog bool → Prop :=
| pr_start :
    probing TABLE LIMIT σ ip None (checkRateLimit TABLE LIMIT ip)
| pr_loop h n i :
    slots_left LIMIT i n →
    (∀ j, 1 ≤ j < i → is_Some (σ !! slot_key ip h j)) →
    probing TABLE LIMIT σ ip (Some h) (for_slots TABLE ip h 3700 n i)
| pr_write h n i ms :
    slots_left LIMIT i (S n) →
    (∀ j, 1 ≤ j < i → is_Some (σ !! slot_key ip h j)) →
    probing TABLE LIMIT σ ip (Some h)
            (DdbSend (consume_cmd TABLE (slot_key ip h i) ms 3700)
                     (after_write TABLE ip h n i))
| pr_true h :
    probing TABLE LIMIT σ ip (Some h) (Ret true).

(** What holds of every pool reached from table [σ0] and calls [ips] by a
    schedule without faults. *)
Record quiet_inv (TABLE : option string) (LIMIT : Z) (σ0 : gmap string Z)
    (ips : list string) (p : pool) : Prop := {
  qi_calls :
    Forall (λ c, probing TABLE LIMIT (pool_table p)
                         (call_ip c) (call_hour c) (call_code c))
           (pool_calls p);
  qi_origin :
    ∀ key, is_Some (pool_table p !! key) →
           is_Some (σ0 !! key) ∨ key ∈ made_pk <$> pool_created p;
  qi_ips : call_ip <$> pool_calls p = ips;
}.

(** [JSON.parse] on the texts [null], [[]] and [true] as well. *)
Definition value_parse (text : string) : error + json Z :=
  if decide (text = "null") then inr JNull
  else if decide (text = "[]") then inr (JArray [])
  else if decide (text = "true") then inr (JBool true)
  else scenario_parse text.

(** A body whose [email] is an object with a field [toString]:
    [{"email":{"toString":1},"message":"x"}], without the quotes escaped. *)
Definition crafted_text : string :=
  "{" +:+ dq +:+ "email" +:+ dq +:+ ":{" +:+ dq +:+ "toString" +:+ dq +:+
  ":1}," +:+ dq +:+ "message" +:+ dq +:+ ":" +:+ dq +:+ "x" +:+ dq +:+ "}".
Definition crafted_value : json Z :=
  JObject [("email", JObject [("toString", JNumber 1)]); ("message", JString "x")].

(** [JSON.parse] on that text as well. *)
Definition object_parse (text : string) : error + json Z :=
  if decide (text = crafted_text) then inr crafted_value
  else scenario_parse text.

Definition crafted : Event := post_from (Some caller) (Some crafted_text).


(* ===================================================================== *)
(** * Properties *)

(** ** Running composed programs *)

Lemma run_bind {A B} env (p : prog A) (f : A → prog B) σ n :
  run env (bind p f) σ n =
  let o := run env p σ n in
  match result o with
  | inl e => Outcome (inl e) (final o) (events o)
  | inr a =>
      let o' := run env (f a) (final o) (n + length (events o))%nat in
      Outcome (result o') (final o') (events o ++ events o')
  end.
Proof.
  revert σ n. induction p as [a|e|k IH|cmd k IH|cmd k IH|l e k IH]; intros σ n; simpl.
  - rewrite Nat.add_0_r. by destruct (run env (f a) σ n).
  - done.
  - rewrite IH. simpl. destruct (result _); [done|].
    unfold seen; simpl. by rewrite Nat.add_succ_r.
  - destruct (ddb_answer env n σ cmd) as [r σ']. rewrite IH. simpl.
    destruct (result _); [done|]. unfold seen; simpl. by rewrite Nat.add_succ_r.
  - rewrite IH. simpl. destruct (result _); [done|].
    unfold seen; simpl. by rewrite Nat.add_succ_r.
  - rewrite IH. simpl. destruct (result _); [done|].
    unfold seen; simpl. by rewrite Nat.add_succ_r.
Qed.

Lemma run_try_catch {A} env (p : prog A) (h : error → prog A) σ n :
  run env (try_catch p h) σ n =
  let o := run env p σ n in
  match result o with
  | inr a => Outcome (inr a) (final o) (events o)
  | inl e =>
      let o' := run env (h e) (final o) (n + length (events o))%nat in
      Outcome (result o') (final o') (events o ++ events o')
  end.
Proof.
  revert σ n. induction p as [a|e|k IH|cmd k IH|cmd k IH|l e k IH]; intros σ n; simpl.
  - done.
  - rewrite Nat.add_0_r. by destruct (run env (h e) σ n).
  - rewrite IH. simpl. destruct (result _); [|done].
    unfold seen; simpl. by rewrite Nat.add_succ_r.
  - destruct (ddb_answer env n σ cmd) as [r σ']. rewrite IH. simpl.
    destruct (result _); [|done]. unfold seen; simpl. by rewrite Nat.add_succ_r.
  - rewrite IH. simpl. destruct (result _); [|done].
    unfold seen; simpl. by rewrite Nat.add_succ_r.
  - rewrite IH. simpl. destruct (result _); [|done].
    unfold seen; simpl. by rewrite Nat.add_succ_r.
Qed.

Lemma ddb_answer_inl env n σ cmd e σ' :
  ddb_answer env n σ cmd = (inl e, σ') → σ' = σ.
Proof.
  unfold ddb_answer, table_put. intros H.
  repeat case_match; by simplify_eq.
Qed.

(** ** One conditional write *)

Lemma run_consume TABLE env pk ttlSeconds σ n :
  run env (consume TABLE pk ttlSeconds) σ n =
  let cmd := consume_cmd TABLE pk (clock env n) ttlSeconds in
  let '(r, σ') := ddb_answer env (S n) σ cmd in
  Outcome (match r with
           | inr _ => inr true
           | inl e => if decide (err_name e = "ConditionalCheckFailedException")
                      then inr false else inl e
           end) σ' [ObsNow (clock env n); ObsPut cmd r].
Proof.
  unfold consume, consume_cmd. simpl.
  destruct (ddb_answer env (S n) σ _) as [[e|[]] σ']; simpl; [|done].
  by case_decide.
Qed.

Lemma for_slots_S TABLE ip h ttlSeconds n i :
  for_slots TABLE ip h ttlSeconds (S n) i =
  bind (consume TABLE (slot_key ip h i) ttlSeconds)
       (λ b : bool, if b then Ret true
                    else for_slots TABLE ip h ttlSeconds n (i + 1)).
Proof. reflexivity. Qed.

(** The recursion is the loop of the source: at index [i] it tests
    [i <= LIMIT], tries slot [i] and goes on with [i + 1]. *)
Lemma for_slots_is_the_loop TABLE LIMIT ip h ttlSeconds i :
  for_slots TABLE ip h ttlSeconds (Z.to_nat (LIMIT + 1 - i)) i =
  if decide (i ≤ LIMIT)
  then bind (consume TABLE (slot_key ip h i) ttlSeconds)
            (λ b : bool,
               if b then Ret true
               else for_slots TABLE ip h ttlSeconds
                              (Z.to_nat (LIMIT + 1 - (i + 1))) (i + 1))
  else Ret false.
Proof.
  case_decide as Hi.
  - replace (Z.to_nat (LIMIT + 1 - i)) with (S (Z.to_nat (LIMIT + 1 - (i + 1))))
      by lia.
    apply for_slots_S.
  - by replace (Z.to_nat (LIMIT + 1 - i)) with 0%nat by lia.
Qed.

Lemma checkRateLimit_starts_at_1 TABLE LIMIT ip :
  checkRateLimit TABLE LIMIT ip =
  DateNow (λ ms, for_slots TABLE ip (ms / 1000 / 3600) 3700
                           (Z.to_nat (LIMIT + 1 - 1)) 1).
Proof. by replace (LIMIT + 1 - 1) with LIMIT by lia. Qed.

Lemma run_for_slots TABLE env ip h n i σ m :
  let o := run env (for_slots TABLE ip h 3700 n i) σ m in
  probes TABLE env ip h i n m σ (events o) (result o) (final o).
Proof.
  revert i σ m. induction n as [|n IH]; intros i σ m.
  { constructor. }
  cbv zeta. rewrite for_slots_S, run_bind, run_consume. cbv zeta.
  destruct (ddb_answer env (S m) σ _) as [[e|[]] σ'] eqn:Hans; cbn.
  - pose proof (ddb_answer_inl _ _ _ _ _ _ Hans) as ->.
    case_decide as Hname; cbn.
    + eapply probes_next; [done..|].
      replace (m + 2)%nat with (S (S m)) by lia. apply IH.
    + by eapply probes_fail.
  - by eapply probes_claim.
Qed.

Lemma run_checkRateLimit TABLE LIMIT env ip σ n :
  run env (checkRateLimit TABLE LIMIT ip) σ n =
  seen (ObsNow (clock env n))
       (run env (for_slots TABLE ip (window_of (clock env n)) 3700
                           (Z.to_nat LIMIT) 1) σ (S n)).
Proof. reflexivity. Qed.

Lemma seqZ_to_nat m n : seqZ m (Z.of_nat (Z.to_nat n)) = seqZ m n.
Proof. unfold seqZ. by rewrite Nat2Z.id. Qed.

Lemma seqZ_succ m (n : nat) :
  seqZ m (Z.of_nat (S n)) = m :: seqZ (m + 1) (Z.of_nat n).
Proof.
  rewrite seqZ_cons by lia. f_equal. f_equal; lia.
Qed.

Lemma table_put_consume_cmd TABLE σ pk ms t :
  table_put σ (consume_cmd TABLE pk ms t) =
  match σ !! pk with
  | Some _ => (inl (Error "ConditionalCheckFailedException"), σ)
  | None => (inr tt, <[pk := ms / 1000 + t]> σ)
  end.
Proof. reflexivity. Qed.

Lemma ddb_answer_nofault env n σ cmd :
  no_ddb_fault env → ddb_answer env n σ cmd = table_put σ cmd.
Proof. intros H. unfold ddb_answer. by rewrite H. Qed.

(** ** The loop on a table that answers *)

Lemma put_keys_probe ms cmd r tr :
  put_keys (ObsNow ms :: ObsPut cmd r :: tr) = Item_pk cmd :: put_keys tr.
Proof. reflexivity. Qed.

Lemma probes_nofault TABLE env ip h i n m σ tr r σ' :
  no_ddb_fault env →
  probes TABLE env ip h i n m σ tr r σ' →
  let keys := slot_key ip h <$> seqZ i (Z.of_nat n) in
  match list_find (λ k, σ !! k = None) keys with
  | Some (j, k) =>
      r = inr true ∧ put_keys tr = take (S j) keys ∧
      σ' = <[k := clock env (m + 2 * j) / 1000 + 3700]> σ
  | None => r = inr false ∧ put_keys tr = keys ∧ σ' = σ
  end.
Proof.
  intros Hnf. induction 1 as
    [i m σ|i n m σ cmd σ' -> Hans|i n m σ cmd e tr r σ' -> Hans Hname _ IH
    |i n m σ cmd e -> Hans Hname]; cbv zeta.
  - done.
  - rewrite ddb_answer_nofault, table_put_consume_cmd in Hans by done.
    rewrite seqZ_succ, fmap_cons. cbn [list_find].
    destruct (σ !! slot_key ip h i) eqn:Hk; [done|].
    rewrite decide_True by done. simplify_eq.
    rewrite Nat.mul_0_r, Nat.add_0_r. done.
  - rewrite ddb_answer_nofault, table_put_consume_cmd in Hans by done.
    rewrite seqZ_succ, fmap_cons. cbn [list_find].
    destruct (σ !! slot_key ip h i) eqn:Hk; [|done].
    rewrite decide_False by (by intros ?).
    cbv zeta in IH.
    rewrite put_keys_probe.
    destruct (list_find _ _) as [[j k]|]; cbn -[Nat.mul Nat.add put_keys].
    + destruct IH as (-> & -> & ->). split_and!; [done..|].
      by replace (m + 2 * S j)%nat with (S (S m) + 2 * j)%nat by lia.
    + by destruct IH as (-> & -> & ->).
  - rewrite ddb_answer_nofault, table_put_consume_cmd in Hans by done.
    destruct (σ !! slot_key ip h i); by simplify_eq.
Qed.

Lemma checkRateLimit_probes TABLE LIMIT env ip σ n :
  no_ddb_fault env →
  let keys := slot_keys ip (window_of (clock env n)) LIMIT in
  let o := run env (checkRateLimit TABLE LIMIT ip) σ n in
  match list_find (λ k, σ !! k = None) keys with
  | Some (j, k) =>
      result o = inr true ∧ put_keys (events o) = take (S j) keys ∧
      final o = <[k := clock env (S n + 2 * j) / 1000 + 3700]> σ
  | None => result o = inr false ∧ put_keys (events o) = keys ∧ final o = σ
  end.
Proof.
  intros Hnf. cbv zeta. rewrite run_checkRateLimit.
  pose proof (run_for_slots TABLE env ip (window_of (clock env n))
                (Z.to_nat LIMIT) 1 σ (S n)) as Hp.
  apply (probes_nofault _ _ _ _ _ _ _ _ _ _ _ Hnf) in Hp.
  cbv zeta in Hp. rewrite seqZ_to_nat in Hp.
  unfold slot_keys in *. by destruct (list_find _ _) as [[j k]|].
Qed.


(** ** Slot keys name their identity, window and slot *)

Lemma string_app_nil (b : string) : "" +:+ b = b.
Proof. reflexivity. Qed.

Lemma string_app_cons x (a b : string) : String x a +:+ b = String x (a +:+ b).
Proof. reflexivity. Qed.

Lemma string_app_assoc (a b c : string) : (a +:+ b) +:+ c = a +:+ (b +:+ c).
Proof.
  induction a as [|x a IH]; [done|]. rewrite !string_app_cons. by f_equal.
Qed.

Lemma has_hash_app_hash a d : has_hash (a +:+ String "#" d) = true.
Proof.
  induction a as [|x a IH]; [done|].
  rewrite string_app_cons. simpl. rewrite IH. by destruct (bool_decide _).
Qed.

(** A string is cut in one way only at its last [#]. *)
Lemma split_last_hash a b d1 d2 :
  has_hash d1 = false → has_hash d2 = false →
  a +:+ String "#" d1 = b +:+ String "#" d2 → a = b ∧ d1 = d2.
Proof.
  intros H1 H2. revert b. induction a as [|x a IH]; intros [|y b] Heq;
    rewrite ?string_app_cons, ?string_app_nil in Heq; simplify_eq.
  - done.
  - by rewrite has_hash_app_hash in H1.
  - by rewrite has_hash_app_hash in H2.
  - by destruct (IH b) as [-> ->].
Qed.

Lemma pretty_N_char_no_hash x : pretty_N_char x ≠ "#"%char.
Proof. unfold pretty_N_char. by repeat case_match. Qed.

Lemma pretty_N_go_no_hash x s :
  has_hash s = false → has_hash (pretty_N_go x s) = false.
Proof.
  revert s. induction (N.lt_wf_0 x) as [x _ IH]; intros s Hs.
  assert (x = 0 ∨ 0 < x)%N as [->|Hx] by lia.
  - by rewrite pretty_N_go_0.
  - rewrite pretty_N_go_step by done. apply IH.
    + by apply N.div_lt.
    + simpl. rewrite Hs. rewrite bool_decide_eq_false_2; [done|].
      apply pretty_N_char_no_hash.
Qed.

Lemma pretty_N_no_hash (x : N) : has_hash (pretty x) = false.
Proof.
  unfold pretty, pretty_N. case_decide; [done|].
  by apply pretty_N_go_no_hash.
Qed.

Lemma pretty_Z_no_hash (z : Z) : has_hash (pretty z) = false.
Proof.
  destruct z as [|p|p]; unfold pretty, pretty_Z; simpl.
  - done.
  - apply pretty_N_no_hash.
  - apply pretty_N_no_hash.
Qed.

Lemma slot_key_inj ip ip' h h' i i' :
  slot_key ip h i = slot_key ip' h' i' → ip = ip' ∧ h = h' ∧ i = i'.
Proof.
  unfold slot_key. intros Heq.
  assert (∀ a x y, "ip#" +:+ a +:+ "#hour#" +:+ x +:+ "#slot#" +:+ y =
    (((("ip#" +:+ a) +:+ String "#" "hour") +:+ String "#" x)
       +:+ String "#" "slot") +:+ String "#" y) as Hshape.
  { intros a x y. rewrite !string_app_assoc. by rewrite !string_app_cons, !string_app_nil. }
  rewrite !Hshape in Heq.
  apply split_last_hash in Heq as [Heq Hi]; [|apply pretty_Z_no_hash..].
  apply split_last_hash in Heq as [Heq _]; [|done..].
  apply split_last_hash in Heq as [Heq Hh]; [|apply pretty_Z_no_hash..].
  apply split_last_hash in Heq as [Heq _]; [|done..].
  split_and!.
  - by apply (inj (String.append "ip#")) in Heq.
  - by apply (inj pretty).
  - by apply (inj pretty).
Qed.

(** ** Expiry of created keys *)

Lemma ddb_answer_inr env n σ cmd σ' :
  ddb_answer env n σ cmd = (inr tt, σ') →
  σ !! Item_pk cmd = None ∧ σ' = <[Item_pk cmd := Item_ttl cmd]> σ.
Proof.
  unfold ddb_answer, table_put. intros H.
  repeat case_match; by simplify_eq.
Qed.

Lemma probes_stamped TABLE env ip h i n m σ tr r σ' :
  probes TABLE env ip h i n m σ tr r σ' →
  ∀ pre cmd res post,
    tr = pre ++ ObsPut cmd res :: post →
    ∃ pre' ms,
      pre = pre' ++ [ObsNow ms] ∧ Item_ttl cmd = ms / 1000 + 3700 ∧
      (res = inr tt →
       σ !! Item_pk cmd = None ∧ σ' = <[Item_pk cmd := Item_ttl cmd]> σ).
Proof.
  induction 1 as
    [i m σ|i n m σ cmd0 σ' -> Hans|i n m σ cmd0 e tr r σ' -> Hans Hname _ IH
    |i n m σ cmd0 e -> Hans Hname]; intros pre cmd res post Heq.
  - by destruct pre.
  - destruct pre as [|o1 [|o2 [|o3 pre]]]; simplify_eq/=.
    exists [], (clock env m). split_and!; [done..|].
    intros _. by apply ddb_answer_inr in Hans.
  - destruct pre as [|o1 [|o2 pre]]; simplify_eq/=.
    + by exists [], (clock env m).
    + destruct (IH pre cmd res post eq_refl) as (pre' & ms & -> & Httl & Hok).
      by exists (ObsNow (clock env m) :: ObsPut (consume_cmd TABLE (slot_key ip h i) (clock env m) 3700) (inl e) :: pre'), ms.
  - destruct pre as [|o1 [|o2 [|o3 pre]]]; simplify_eq/=.
    by exists [], (clock env m).
Qed.

(** C7.  In every run of [checkRateLimit], each conditional write comes
    right after a reading [ms] of the clock and carries the expiry
    [floor(ms / 1000) + 3600 + 100]: the epoch second at write time, the
    window length and a slack of 100 seconds.  A write that succeeds leaves
    the key, absent before, in the table with that expiry. *)
Theorem created_key_expiry TABLE LIMIT env ip σ n pre cmd res post :
  let o := run env (checkRateLimit TABLE LIMIT ip) σ n in
  events o = pre ++ ObsPut cmd res :: post →
  ∃ pre' ms,
    pre = pre' ++ [ObsNow ms] ∧
    Item_ttl cmd = ms / 1000 + 3600 + 100 ∧
    (res = inr tt →
     σ !! Item_pk cmd = None ∧
     final o = <[Item_pk cmd := ms / 1000 + 3600 + 100]> σ).
Proof.
  cbv zeta. rewrite run_checkRateLimit. cbn [events seen final].
  intros Heq. destruct pre as [|o1 pre]; simplify_eq/=.
  pose proof (run_for_slots TABLE env ip (window_of (clock env n))
                (Z.to_nat LIMIT) 1 σ (S n)) as Hp.
  destruct (probes_stamped _ _ _ _ _ _ _ _ _ _ _ Hp pre cmd res post)
    as (pre' & ms & -> & Httl & Hok); [done|].
  exists (ObsNow (clock env n) :: pre'), ms. split_and!; [done|lia|].
  intros Hres. destruct (Hok Hres) as [? ->]. split; [done|].
  f_equal. lia.
Qed.

(** On a clock that does not run backwards, a key is due at least 100
    seconds after the window of its call is over. *)
Lemma probes_outlive TABLE env ip h i n m σ tr r σ' cmd res :
  (∀ a b, (a ≤ b)%nat → clock env a ≤ clock env b) →
  probes TABLE env ip h i n m σ tr r σ' →
  ObsPut cmd res ∈ tr →
  clock env m / 1000 + 3700 ≤ Item_ttl cmd.
Proof.
  intros Hmono Hp Hin. induction Hp as
    [i m σ|i n m σ cmd0 σ' -> Hans|i n m σ cmd0 e tr r σ' -> Hans Hname _ IH
    |i n m σ cmd0 e -> Hans Hname].
  - by apply elem_of_nil in Hin.
  - repeat (apply elem_of_cons in Hin as [Hin|Hin]; simplify_eq); [done|].
    by apply elem_of_nil in Hin.
  - apply elem_of_cons in Hin as [Hin|Hin]; simplify_eq.
    apply elem_of_cons in Hin as [Hin|Hin]; simplify_eq; [done|].
    specialize (IH Hin).
    assert (clock env m ≤ clock env (S (S m))) by (apply Hmono; lia).
    assert (clock env m / 1000 ≤ clock env (S (S m)) / 1000)
      by (apply Z.div_le_mono; lia).
    lia.
  - repeat (apply elem_of_cons in Hin as [Hin|Hin]; simplify_eq); [done|].
    by apply elem_of_nil in Hin.
Qed.

Lemma created_key_outlives_window TABLE LIMIT env ip σ n cmd res :
  (∀ a b, (a ≤ b)%nat → clock env a ≤ clock env b) →
  ObsPut cmd res ∈ events (run env (checkRateLimit TABLE LIMIT ip) σ n) →
  3600 * (window_of (clock env n) + 1) + 100 ≤ Item_ttl cmd.
Proof.
  intros Hmono. rewrite run_checkRateLimit. cbn [events seen].
  intros Hin. apply elem_of_cons in Hin as [Hin|Hin]; simplify_eq.
  pose proof (probes_outlive _ _ _ _ _ _ _ _ _ _ _ _ _ Hmono
                (run_for_slots TABLE env ip (window_of (clock env n))
                               (Z.to_nat LIMIT) 1 σ (S n)) Hin) as Httl.
  assert (clock env n ≤ clock env (S n)) by (apply Hmono; lia).
  assert (clock env n / 1000 ≤ clock env (S n) / 1000)
    by (apply Z.div_le_mono; lia).
  pose proof (Z.mul_div_le (clock env n / 1000) 3600 ltac:(lia)).
  unfold window_of. lia.
Qed.

(** ** Denial and windows *)

Lemma checkRateLimit_denied_iff TABLE LIMIT env ip σ n :
  no_ddb_fault env →
  result (run env (checkRateLimit TABLE LIMIT ip) σ n) = inr false ↔
  Forall (λ k, is_Some (σ !! k)) (slot_keys ip (window_of (clock env n)) LIMIT).
Proof.
  intros Hnf.
  pose proof (checkRateLimit_probes TABLE LIMIT env ip σ n Hnf) as H.
  cbv zeta in H.
  destruct (list_find _ _) as [[j k]|] eqn:Hfind.
  - destruct H as [-> _]. split; [done|]. intros Hall.
    apply list_find_Some in Hfind as (Hk & Hnone & _).
    rewrite Forall_forall in Hall.
    destruct (Hall k) as [z Hz]; [by eapply list_elem_of_lookup_2|congruence].
  - destruct H as [-> _]. split; [|done]. intros _.
    apply list_find_None in Hfind. eapply Forall_impl; [done|].
    intros k Hk. simpl in Hk. by apply not_eq_None_Some.
Qed.

(** C5.  Once a call has returned [false], all [LIMIT] slot keys of its
    identity and window are in the table; as long as the table only grows,
    every later call of the same identity that reads a time in the same
    window returns [false] too and leaves the table as it found it. *)
Theorem denial_is_idempotent TABLE LIMIT env1 env2 ip σ1 σ2 n1 n2 :
  no_ddb_fault env1 → no_ddb_fault env2 →
  let o1 := run env1 (checkRateLimit TABLE LIMIT ip) σ1 n1 in
  let o2 := run env2 (checkRateLimit TABLE LIMIT ip) σ2 n2 in
  result o1 = inr false →
  final o1 ⊆ σ2 →
  window_of (clock env2 n2) = window_of (clock env1 n1) →
  Forall (λ k, is_Some (final o1 !! k))
         (slot_keys ip (window_of (clock env1 n1)) LIMIT) ∧
  result o2 = inr false ∧ final o2 = σ2.
Proof.
  intros Hnf1 Hnf2. cbv zeta. intros Hres Hsub Hwin.
  pose proof (checkRateLimit_probes TABLE LIMIT env1 ip σ1 n1 Hnf1) as H1.
  cbv zeta in H1.
  pose proof Hres as Hall. apply checkRateLimit_denied_iff in Hall; [|done].
  destruct (list_find _ _) as [[j k]|]; [destruct H1; congruence|].
  destruct H1 as (_ & _ & Hfinal). rewrite Hfinal in *.
  assert (Forall (λ k, is_Some (σ2 !! k))
            (slot_keys ip (window_of (clock env2 n2)) LIMIT)) as Hall2.
  { rewrite Hwin. eapply Forall_impl; [done|]. intros k [z Hz].
    exists z. by eapply lookup_weaken. }
  split; [done|].
  pose proof Hall2 as Hres2.
  apply (checkRateLimit_denied_iff TABLE) in Hres2; [|done].
  split; [done|].
  pose proof (checkRateLimit_probes TABLE LIMIT env2 ip σ2 n2 Hnf2) as H2.
  cbv zeta in H2.
  destruct (list_find _ _) as [[j k]|]; [destruct H2; congruence|].
  by destruct H2 as (_ & _ & ?).
Qed.

Lemma ddb_answer_frame env n σ cmd extra r σ' :
  extra !! Item_pk cmd = None →
  ddb_answer env n σ cmd = (r, σ') →
  ddb_answer env n (extra ∪ σ) cmd = (r, extra ∪ σ').
Proof.
  intros Hfresh. unfold ddb_answer, table_put.
  rewrite (lookup_union_r extra σ) by done.
  intros H. repeat case_match; simplify_eq; try done.
  by rewrite insert_union_r.
Qed.

(** Keys that the loop never names do not change what it does. *)
Lemma probes_frame TABLE env ip h i n m σ tr r σ' extra :
  (∀ j, extra !! slot_key ip h j = None) →
  probes TABLE env ip h i n m σ tr r σ' →
  probes TABLE env ip h i n m (extra ∪ σ) tr r (extra ∪ σ').
Proof.
  intros Hfresh. induction 1 as
    [i m σ|i n m σ cmd σ' -> Hans|i n m σ cmd e tr r σ' -> Hans Hname _ IH
    |i n m σ cmd e -> Hans Hname].
  - constructor.
  - eapply probes_claim; [done|]. apply ddb_answer_frame; [apply Hfresh|done].
  - eapply probes_next; [done| |done..]. apply ddb_answer_frame; [apply Hfresh|done].
  - eapply probes_fail; [done| |done]. apply ddb_answer_frame; [apply Hfresh|done].
Qed.

(** Two answers of the table to the same write are one answer. *)
Local Ltac same_answer :=
  repeat match goal with
  | H1 : ddb_answer ?env ?n ?σ ?cmd = _, H2 : ddb_answer ?env ?n ?σ ?cmd = _ |- _ =>
      rewrite H1 in H2; simplify_eq
  end.

Lemma probes_det TABLE env ip h i n m σ tr1 r1 σ1 tr2 r2 σ2 :
  probes TABLE env ip h i n m σ tr1 r1 σ1 →
  probes TABLE env ip h i n m σ tr2 r2 σ2 →
  tr1 = tr2 ∧ r1 = r2 ∧ σ1 = σ2.
Proof.
  intros H1. revert tr2 r2 σ2. induction H1 as
    [i m σ|i n m σ cmd σ' -> Hans|i n m σ cmd e tr r σ' -> Hans Hname _ IH
    |i n m σ cmd e -> Hans Hname]; intros tr2 r2 σ2 H2;
    inversion H2; simplify_eq; same_answer; try done.
  by destruct (IH _ _ _ ltac:(eassumption)) as (-> & -> & ->).
Qed.

(** C6.  Slot keys of window [w], of whatever identity and slot, make no
    difference to a call that reads a time in another window: it returns
    the same result after the same writes, and the table it leaves differs
    only by those keys.  So a window that is used up takes nothing from the
    next one. *)
Theorem windows_are_independent TABLE LIMIT env ip σ extra w n :
  let o := run env (checkRateLimit TABLE LIMIT ip) σ n in
  let o' := run env (checkRateLimit TABLE LIMIT ip) (extra ∪ σ) n in
  window_of (clock env n) ≠ w →
  (∀ k, is_Some (extra !! k) → ∃ ip' j, k = slot_key ip' w j) →
  result o' = result o ∧ events o' = events o ∧ final o' = extra ∪ final o.
Proof.
  cbv zeta. intros Hw Hextra. rewrite !run_checkRateLimit.
  cbn [result events final seen].
  set (h := window_of (clock env n)) in *.
  assert (∀ j, extra !! slot_key ip h j = None) as Hfresh.
  { intros j. apply eq_None_not_Some. intros Hin.
    destruct (Hextra _ Hin) as (ip' & j' & Heq).
    apply slot_key_inj in Heq as (_ & ? & _). done. }
  pose proof (run_for_slots TABLE env ip h (Z.to_nat LIMIT) 1 σ (S n)) as Hp.
  pose proof (run_for_slots TABLE env ip h (Z.to_nat LIMIT) 1 (extra ∪ σ) (S n))
    as Hp'.
  apply (probes_frame _ _ _ _ _ _ _ _ _ _ _ extra Hfresh) in Hp.
  destruct (probes_det _ _ _ _ _ _ _ _ _ _ _ _ _ _ Hp' Hp) as (-> & -> & ->).
  done.
Qed.

(** ** Concurrent calls *)

Lemma checkRateLimit_unfold TABLE LIMIT ip :
  checkRateLimit TABLE LIMIT ip =
  DateNow (λ ms, for_slots TABLE ip (window_of ms) 3700 (Z.to_nat LIMIT) 1).
Proof. reflexivity. Qed.

Lemma for_slots_unfold TABLE ip h n i :
  for_slots TABLE ip h 3700 (S n) i =
  DateNow (λ ms, DdbSend (consume_cmd TABLE (slot_key ip h i) ms 3700)
                         (after_write TABLE ip h n i)).
Proof. reflexivity. Qed.

Lemma after_write_ok TABLE ip h n i :
  after_write TABLE ip h n i (inr tt) = Ret true.
Proof. reflexivity. Qed.

Lemma after_write_error TABLE ip h n i e :
  after_write TABLE ip h n i (inl e) =
  if decide (err_name e = "ConditionalCheckFailedException")
  then for_slots TABLE ip h 3700 n (i + 1)
  else Throw e.
Proof. unfold after_write. cbn. by case_decide. Qed.

Lemma for_slots_not_true TABLE ip h n i :
  returned_true (for_slots TABLE ip h 3700 n i) = false.
Proof. by destruct n. Qed.

Lemma slot_key_in_slot_keys LIMIT ip h i n :
  slots_left LIMIT i (S n) → slot_key ip h i ∈ slot_keys ip h LIMIT.
Proof.
  intros [Hi Hn]. unfold slot_keys. apply list_elem_of_fmap_2.
  apply elem_of_seqZ. lia.
Qed.

Lemma slots_left_next LIMIT i n :
  slots_left LIMIT i (S n) → slots_left LIMIT (i + 1) n.
Proof. unfold slots_left. lia. Qed.

Lemma slots_left_first LIMIT : slots_left LIMIT 1 (Z.to_nat LIMIT).
Proof. unfold slots_left. lia. Qed.

(** One step of one call: the call stays in one of its states, and it has
    returned [true] after the step exactly when the step created a key, one
    of the slot keys of its identity and window that was not in the table. *)
Lemma call_step_in_flight TABLE LIMIT σ c σ' c' new :
  in_flight TABLE LIMIT (call_ip c) (call_hour c) (call_code c) →
  call_step σ c σ' c' new →
  in_flight TABLE LIMIT (call_ip c') (call_hour c') (call_code c') ∧
  returned_true (call_code c) = false ∧
  ((new = [] ∧ returned_true (call_code c') = false ∧ σ' = σ) ∨
   (∃ h pk ttl,
      call_hour c' = Some h ∧
      new = [Creation (call_ip c') (Some h) pk] ∧
      pk ∈ slot_keys (call_ip c') h LIMIT ∧
      σ !! pk = None ∧ σ' = <[pk := ttl]> σ ∧
      returned_true (call_code c') = true)).
Proof.
  destruct c as [ip oh code]. cbn [call_ip call_hour call_code].
  intros Hfl Hstep.
  destruct Hfl as [|h n i Hleft|h n i ms Hleft|h|h e].
  - rewrite checkRateLimit_unfold in Hstep. inversion Hstep; simplify_eq.
    cbn. split_and!; [|done|].
    + apply fl_loop, slots_left_first.
    + left. by rewrite for_slots_not_true.
  - destruct n as [|n]; [inversion Hstep|].
    rewrite for_slots_unfold in Hstep. inversion Hstep; simplify_eq.
    cbn. split_and!; [|done|].
    + by apply fl_write.
    + by left.
  - inversion Hstep; simplify_eq; cbn [call_ip call_hour call_code].
    + match goal with H : table_put _ _ = _ |- _ =>
        rewrite table_put_consume_cmd in H end.
      destruct (σ !! slot_key ip h i) eqn:Hk; simplify_eq.
      split_and!; [apply fl_true|done|].
      right. eexists h, _, _. split_and!; try done.
      by eapply slot_key_in_slot_keys.
    + match goal with H : table_put _ _ = _ |- _ =>
        rewrite table_put_consume_cmd in H end.
      destruct (σ !! slot_key ip h i) eqn:Hk; simplify_eq.
      rewrite after_write_error, decide_True by done.
      split_and!; [|done|].
      * apply fl_loop. by apply slots_left_next.
      * left. by rewrite for_slots_not_true.
    + rewrite after_write_error. case_decide.
      * split_and!; [|done|].
        -- apply fl_loop. by apply slots_left_next.
        -- left. by rewrite for_slots_not_true.
      * split_and!; [apply fl_throw|done|by left].
  - inversion Hstep.
  - inversion Hstep.
Qed.

Lemma wins_cons ip w c cs :
  wins ip w (c :: cs) = ((if won ip w c then 1 else 0) + wins ip w cs)%nat.
Proof.
  unfold wins. rewrite filter_cons. by destruct (won ip w c).
Qed.

Lemma wins_insert ip w cs t c c' :
  cs !! t = Some c →
  (wins ip w (<[t := c']> cs) + (if won ip w c then 1 else 0) =
   wins ip w cs + (if won ip w c' then 1 else 0))%nat.
Proof.
  revert t. induction cs as [|c0 cs IH]; intros [|t] Hc; simplify_eq/=.
  - rewrite !wins_cons. lia.
  - rewrite !wins_cons. specialize (IH t Hc). lia.
Qed.

Lemma creations_snoc ip w log m :
  creations ip w (log ++ [m]) =
  creations ip w log ++ (if made_for ip w m then [made_pk m] else []).
Proof.
  unfold creations. rewrite filter_app, fmap_app. f_equal.
  rewrite filter_cons, filter_nil. by destruct (made_for ip w m).
Qed.

Lemma table_grows (σ : gmap string Z) pk ttl k :
  is_Some (σ !! k) → is_Some ((<[pk := ttl]> σ) !! k).
Proof. intros. apply lookup_insert_is_Some'. by right. Qed.

Lemma pool_inv_init TABLE LIMIT σ ips :
  pool_inv TABLE LIMIT (init_pool TABLE LIMIT σ ips).
Proof.
  unfold init_pool. split; cbn [pool_calls pool_created pool_table].
  - apply Forall_fmap, Forall_forall. intros ip _. apply fl_start.
  - constructor.
  - by intros m ?%elem_of_nil.
  - by intros m ?%elem_of_nil.
  - intros ip w. induction ips as [|ip0 ips IH]; [done|].
    rewrite fmap_cons, wins_cons.
    unfold won at 1. cbn. rewrite andb_false_r. done.
Qed.

Lemma pool_inv_step TABLE LIMIT p p' :
  pool_inv TABLE LIMIT p → pool_step p p' → pool_inv TABLE LIMIT p'.
Proof.
  intros [Hcalls Hnodup Htable Hkeys Hwins] Hstep.
  destruct Hstep as [σ cs log t c σ' c' new Ht Hc].
  cbn [pool_calls pool_created pool_table] in *.
  pose proof (Forall_lookup_1 _ _ _ _ Hcalls Ht) as Hfl. cbn in Hfl.
  destruct (call_step_in_flight _ _ _ _ _ _ _ Hfl Hc)
    as (Hfl' & Hnot & [(-> & Hnot' & ->)|(h & pk & ttl & Hh & -> & Hpk & Hfresh & -> & Hwon)]).
  - rewrite app_nil_r. split; cbn [pool_calls pool_created pool_table]; try done.
    + by apply Forall_insert.
    + intros ip w. pose proof (wins_insert ip w cs t c c' Ht) as Heq.
      unfold won in Heq. rewrite Hnot, Hnot', !andb_false_r in Heq.
      specialize (Hwins ip w). lia.
  - split; cbn [pool_calls pool_created pool_table].
    + by apply Forall_insert.
    + rewrite fmap_app, list_fmap_singleton. cbn [made_pk]. apply NoDup_app. split_and!; [done| |apply NoDup_singleton].
      intros k Hk ->%list_elem_of_singleton.
      apply list_elem_of_fmap in Hk as (m & -> & Hm).
      destruct (Htable m Hm) as [z Hz]. cbn in Hz. congruence.
    + intros m [Hm| ->%list_elem_of_singleton]%elem_of_app.
      * by apply table_grows, Htable.
      * cbn. rewrite lookup_insert_eq. by eexists.
    + intros m [Hm| ->%list_elem_of_singleton]%elem_of_app; [by apply Hkeys|].
      by exists h.
    + intros ip w. pose proof (wins_insert ip w cs t c c' Ht) as Heq.
      rewrite creations_snoc, length_app.
      unfold won in Heq. rewrite Hnot, Hwon, Hh, andb_false_r, andb_true_r in Heq.
      unfold made_for. cbn.
      specialize (Hwins ip w).
      destruct (bool_decide (call_ip c' = ip) && bool_decide (Some h = Some w));
        cbn; lia.
Qed.

Lemma pool_inv_reachable TABLE LIMIT σ ips p :
  rtc pool_step (init_pool TABLE LIMIT σ ips) p → pool_inv TABLE LIMIT p.
Proof.
  intros Hrtc. revert p Hrtc. apply rtc_ind_r.
  - apply pool_inv_init.
  - intros p p' _ Hstep Hinv. by eapply pool_inv_step.
Qed.

Lemma creations_bounded TABLE LIMIT p ip w :
  pool_inv TABLE LIMIT p →
  (length (creations ip w (pool_created p)) ≤ Z.to_nat LIMIT)%nat.
Proof.
  intros [_ Hnodup _ Hkeys _].
  rewrite <-(length_seqZ 1 LIMIT), <-(length_fmap (slot_key ip w)).
  apply submseteq_length, NoDup_submseteq.
  - unfold creations. eapply sublist_NoDup; [done|].
    apply fmap_sublist, sublist_filter.
  - intros pk Hpk. unfold creations in Hpk.
    apply list_elem_of_fmap in Hpk as (m & -> & Hm).
    apply list_elem_of_filter in Hm as [Hfor Hm].
    unfold made_for in Hfor.
    apply andb_prop_elim in Hfor as [Hip%bool_decide_unpack Hw%bool_decide_unpack].
    destruct (Hkeys m Hm) as (h & Hh & Hin). by simplify_eq.
Qed.

(** C1.  However the steps of any number of calls are interleaved on the
    shared table, for every identity and window at most [LIMIT] calls have
    returned [true] and at most [LIMIT] slot keys have been created. *)
Theorem at_most_limit_per_window TABLE LIMIT σ ips p ip w :
  0 ≤ LIMIT →
  rtc pool_step (init_pool TABLE LIMIT σ ips) p →
  Z.of_nat (wins ip w (pool_calls p)) ≤ LIMIT ∧
  Z.of_nat (length (creations ip w (pool_created p))) ≤ LIMIT.
Proof.
  intros Hlimit Hrtc. apply pool_inv_reachable in Hrtc.
  pose proof (creations_bounded _ _ _ ip w Hrtc) as Hmade.
  pose proof (inv_wins _ _ _ Hrtc ip w) as Hwins. lia.
Qed.

(** ** What a run of the limiter shows *)

Lemma probes_mails TABLE env ip h i n m σ tr r σ' :
  probes TABLE env ip h i n m σ tr r σ' → mails tr = [].
Proof. induction 1; by cbn. Qed.

Lemma probes_put_keys TABLE env ip h i n m σ tr r σ' :
  probes TABLE env ip h i n m σ tr r σ' →
  ∃ j, put_keys tr = take j (slot_key ip h <$> seqZ i (Z.of_nat n)).
Proof.
  induction 1 as
    [i m σ|i n m σ cmd σ' -> Hans|i n m σ cmd e tr r σ' -> Hans Hname _ IH
    |i n m σ cmd e -> Hans Hname].
  - by exists 0%nat.
  - exists 1%nat. by rewrite seqZ_succ.
  - destruct IH as [j Hj]. exists (S j).
    by rewrite put_keys_probe, Hj, seqZ_succ.
  - exists 1%nat. by rewrite seqZ_succ.
Qed.

Lemma probes_fault TABLE env ip h i n m σ tr r σ' cmd e :
  probes TABLE env ip h i n m σ tr r σ' →
  ObsPut cmd (inl e) ∈ tr →
  err_name e ≠ "ConditionalCheckFailedException" →
  r = inl e.
Proof.
  intros Hp Hin Hname. induction Hp as
    [i m σ|i n m σ cmd0 σ' -> Hans|i n m σ cmd0 e0 tr r σ' -> Hans Hname0 _ IH
    |i n m σ cmd0 e0 -> Hans Hname0].
  - by apply elem_of_nil in Hin.
  - repeat (apply elem_of_cons in Hin as [Hin|Hin]; simplify_eq).
    by apply elem_of_nil in Hin.
  - apply elem_of_cons in Hin as [Hin|Hin]; simplify_eq.
    apply elem_of_cons in Hin as [Hin|Hin]; simplify_eq. by apply IH.
  - repeat (apply elem_of_cons in Hin as [Hin|Hin]; simplify_eq); [done|].
    by apply elem_of_nil in Hin.
Qed.

Lemma mails_app tr1 tr2 : mails (tr1 ++ tr2) = mails tr1 ++ mails tr2.
Proof. unfold mails. apply omap_app. Qed.


Lemma checkRateLimit_mails TABLE LIMIT env ip σ n :
  mails (events (run env (checkRateLimit TABLE LIMIT ip) σ n)) = [].
Proof.
  rewrite run_checkRateLimit. cbn [events seen].
  change (mails (?o :: ?tr)) with (mails tr).
  eapply probes_mails, run_for_slots.
Qed.

Lemma checkRateLimit_put_keys TABLE LIMIT env ip σ n :
  ∃ j, put_keys (events (run env (checkRateLimit TABLE LIMIT ip) σ n)) =
       take j (slot_keys ip (window_of (clock env n)) LIMIT).
Proof.
  rewrite run_checkRateLimit. cbn [events seen].
  change (put_keys (?o :: ?tr)) with (put_keys tr).
  destruct (probes_put_keys _ _ _ _ _ _ _ _ _ _ _
              (run_for_slots TABLE env ip (window_of (clock env n))
                             (Z.to_nat LIMIT) 1 σ (S n))) as [j Hj].
  exists j. by rewrite Hj, seqZ_to_nat.
Qed.

Lemma checkRateLimit_fault TABLE LIMIT env ip σ n cmd e :
  ObsPut cmd (inl e) ∈ events (run env (checkRateLimit TABLE LIMIT ip) σ n) →
  err_name e ≠ "ConditionalCheckFailedException" →
  result (run env (checkRateLimit TABLE LIMIT ip) σ n) = inl e.
Proof.
  rewrite run_checkRateLimit. cbn [events seen result].
  intros Hin Hname. apply elem_of_cons in Hin as [Hin|Hin]; simplify_eq.
  eapply probes_fault; [apply run_for_slots|done..].
Qed.

(** ** The handler *)

Section HandlerFacts.

Context (TABLE : option string) (LIMIT : Z) (FROM_EMAIL : option string)
        (ALLOWED_ORIGIN : string) (number : Type)
        (Number_truthy : number → bool) (Number_toString : number → string)
        (JSON_parse : string → error + json number) (trim : string → string).

Local Abbreviation handle :=
  (handler TABLE LIMIT FROM_EMAIL ALLOWED_ORIGIN number Number_truthy
           Number_toString JSON_parse trim).
Local Abbreviation field_of :=
  (field number Number_truthy Number_toString trim).
Local Abbreviation respond status text :=
  (response status ALLOWED_ORIGIN text).

(** The handler up to the rate-limit check: an answer without any effect,
    a caught error, or the rest of the handler for the validated fields. *)
Lemma handler_cases event :
  (∃ r, handle event = Ret r) ∨
  (∃ e, handle event = on_error ALLOWED_ORIGIN e) ∨
  (∃ name email message,
     handle event =
     try_catch (serve TABLE LIMIT FROM_EMAIL ALLOWED_ORIGIN
                      (ipFromEvent event) name email message)
               (on_error ALLOWED_ORIGIN)).
Proof.
  unfold handler. case_decide; [by eauto|].
  destruct (js_not TABLE); [by eauto|].
  destruct (js_not FROM_EMAIL); [by eauto|].
  destruct (JSON_parse _) as [e|parsed]; [by right; left; exists e|]. cbn.
  destruct (field_of parsed "company") as [e|company];
    [by right; left; exists e|]. cbn.
  destruct (negb _); [by eauto|].
  destruct (field_of parsed "name") as [e|name];
    [by right; left; exists e|]. cbn.
  destruct (field_of parsed "email") as [e|email];
    [by right; left; exists e|]. cbn.
  destruct (field_of parsed "message") as [e|message];
    [by right; left; exists e|]. cbn.
  destruct (_ || _); [by eauto|].
  right; right. by exists name, email, message.
Qed.

(** Only a request that parses, leaves the honeypot empty and fills in the
    three fields makes the handler write to the table or send an email. *)
Lemma effects_need_a_valid_request event env σ n :
  put_keys (events (run env (handle event) σ n)) ≠ [] ∨
  mails (events (run env (handle event) σ n)) ≠ [] →
  request_method event ≠ Some "OPTIONS" ∧ configured TABLE FROM_EMAIL ∧
  ∃ parsed name email message,
    JSON_parse (request_body event) = inr parsed ∧
    field_of parsed "company" = inr "" ∧
    field_of parsed "name" = inr name ∧ name ≠ "" ∧
    field_of parsed "email" = inr email ∧ email ≠ "" ∧
    field_of parsed "message" = inr message ∧ message ≠ "".
Proof.
  unfold handler, configured.
  fold (request_method event). fold (request_body event).
  case_decide as Hm; [by intros [|]|].
  destruct (js_not TABLE); [by intros [|]|].
  destruct (js_not FROM_EMAIL); [by intros [|]|].
  destruct (JSON_parse _) as [e|parsed] eqn:Hparse; [by intros [|]|]. cbn.
  destruct (field_of parsed "company") as [e|company] eqn:Hcompany;
    [by intros [|]|]. cbn.
  case_bool_decide as Hc; [|by intros [|]]. subst company. cbn.
  destruct (field_of parsed "name") as [e|name] eqn:Hname; [by intros [|]|]. cbn.
  destruct (field_of parsed "email") as [e|email] eqn:Hemail; [by intros [|]|]. cbn.
  destruct (field_of parsed "message") as [e|message] eqn:Hmessage;
    [by intros [|]|]. cbn.
  repeat case_bool_decide; cbn; try by intros [|].
  intros _. split_and!; try done. by exists parsed, name, email, message.
Qed.

Lemma run_serve env ip name email message σ n :
  let oc := run env (checkRateLimit TABLE LIMIT ip) σ n in
  let mail := contact_mail FROM_EMAIL name email message in
  run env (try_catch (serve TABLE LIMIT FROM_EMAIL ALLOWED_ORIGIN
                            ip name email message)
                     (on_error ALLOWED_ORIGIN)) σ n =
  match result oc with
  | inl e =>
      Outcome (inr (respond 500 "Server error")) (final oc)
              (events oc ++ [ObsLog "contact error:" e])
  | inr false =>
      Outcome (inr (respond 429 "Too many requests")) (final oc) (events oc)
  | inr true =>
      match ses_answer env (n + length (events oc)) with
      | inr u =>
          Outcome (inr (respond 200 "OK")) (final oc)
                  (events oc ++ [ObsMail mail (inr u)])
      | inl e =>
          Outcome (inr (respond 500 "Server error")) (final oc)
                  (events oc ++ [ObsMail mail (inl e); ObsLog "contact error:" e])
      end
  end.
Proof.
  cbv zeta. rewrite run_try_catch. unfold serve.
  change (mbind ?f ?p) with (bind p f). rewrite run_bind. cbv zeta.
  destruct (run env (checkRateLimit TABLE LIMIT ip) σ n) as [[e|[|]] σ' tr];
    cbn.
  - done.
  - destruct (ses_answer env _) as [e|[]]; cbn.
    + by rewrite <-?app_assoc.
    + by rewrite ?app_nil_r.
  - by rewrite ?app_nil_r.
Qed.

(** C4.  A request that gets as far as parsing and whose [company] field
    is not empty after trimming is answered [200 OK] at once: the handler
    is then a plain return, so it writes nothing to the table and sends no
    email, and it neither validates the other fields nor checks the rate
    limit. *)
Theorem honeypot_is_silently_accepted event parsed company env σ n :
  request_method event ≠ Some "OPTIONS" →
  configured TABLE FROM_EMAIL →
  JSON_parse (request_body event) = inr parsed →
  field_of parsed "company" = inr company →
  company ≠ "" →
  handle event = Ret (respond 200 "OK") ∧
  run env (handle event) σ n = Outcome (inr (respond 200 "OK")) σ [].
Proof.
  unfold request_method, request_body, configured.
  intros Hmethod [HT HF] Hparse Hcompany Hne.
  assert (handle event = Ret (respond 200 "OK")) as ->; [|done].
  unfold handler. rewrite decide_False, HT, HF, Hparse by done. cbn.
  rewrite Hcompany. cbn. by rewrite bool_decide_eq_false_2.
Qed.

(** C8.  A request that gets as far as parsing, with an empty honeypot
    field, and in which [name], [email] or [message] is empty after
    trimming makes the handler write nothing to the table and send no
    email.  The three fields are converted in the order [name], [email],
    [message] before any of them is tested: when all three convert the
    answer is [400 Missing fields]; when a conversion throws, the error of
    the first one that does is logged and the answer is [500 Server
    error]. *)
Theorem empty_field_has_no_effect event parsed env σ n :
  request_method event ≠ Some "OPTIONS" →
  configured TABLE FROM_EMAIL →
  JSON_parse (request_body event) = inr parsed →
  field_of parsed "company" = inr "" →
  field_of parsed "name" = inr "" ∨ field_of parsed "email" = inr "" ∨
  field_of parsed "message" = inr "" →
  let o := run env (handle event) σ n in
  let caught e :=
    Outcome (inr (respond 500 "Server error")) σ [ObsLog "contact error:" e] in
  final o = σ ∧ put_keys (events o) = [] ∧ mails (events o) = [] ∧
  o = match field_of parsed "name" with
      | inl e => caught e
      | inr _ =>
          match field_of parsed "email" with
          | inl e => caught e
          | inr _ =>
              match field_of parsed "message" with
              | inl e => caught e
              | inr _ => Outcome (inr (respond 400 "Missing fields")) σ []
              end
          end
      end.
Proof.
  unfold request_method, request_body, configured.
  intros Hmethod [HT HF] Hparse Hcompany Hempty. cbv zeta.
  unfold handler. rewrite decide_False, HT, HF, Hparse by done.
  cbn [lift mbind prog_bind bind]. rewrite Hcompany.
  cbn [lift mbind prog_bind bind negb].
  rewrite (bool_decide_eq_true_2 ("" = "")) by done. cbn [negb].
  destruct (field_of parsed "name") as [e1|name]; [done|].
  cbn [lift mbind prog_bind bind].
  destruct (field_of parsed "email") as [e2|email]; [done|].
  cbn [lift mbind prog_bind bind].
  destruct (field_of parsed "message") as [e3|message]; [done|].
  cbn [lift mbind prog_bind bind].
  assert (bool_decide (name = "") || bool_decide (email = "")
          || bool_decide (message = "") = true) as ->; [|done].
  destruct Hempty as [[= ->] | [[= ->] | [= ->]]]; cbn;
    by rewrite ?orb_true_r.
Qed.

Lemma field_of_empty_object k :
  field_of (JObject []) k = inr (trim "").
Proof. reflexivity. Qed.

(** C9.  For a request other than a preflight, on a configured handler: a
    body that is present and that [JSON.parse] rejects ends in the outer
    [catch], which logs the error and answers [500 Server error], not 400;
    a body that is missing or empty is parsed as [{}], an object without
    fields, and is answered [400 Missing fields]. *)
Theorem malformed_body_is_server_error event env σ n :
  request_method event ≠ Some "OPTIONS" →
  configured TABLE FROM_EMAIL →
  (∀ text e,
     body event = Some text → text ≠ "" → JSON_parse text = inl e →
     run env (handle event) σ n =
     Outcome (inr (respond 500 "Server error")) σ [ObsLog "contact error:" e]) ∧
  (body event = None ∨ body event = Some "" →
   JSON_parse "{}" = inr (JObject []) → trim "" = "" →
   run env (handle event) σ n =
   Outcome (inr (respond 400 "Missing fields")) σ []).
Proof.
  unfold request_method, configured. intros Hmethod [HT HF]. split.
  - intros text e Hbody Htext Hparse.
    unfold handler. rewrite decide_False, HT, HF, Hbody by done.
    cbn [js_or]. rewrite decide_False by done. cbn [default from_option id].
    by rewrite Hparse.
  - intros Hbody Hparse Htrim.
    assert (request_body event = "{}") as Hreq.
    { unfold request_body. by destruct Hbody as [-> | ->]. }
    unfold handler. rewrite decide_False, HT, HF by done.
    fold (request_body event). rewrite Hreq, Hparse. cbn [lift mbind prog_bind bind].
    rewrite !field_of_empty_object, Htrim. done.
Qed.

(** C3.  A conditional write that fails with the condition-failed error
    makes [consume] return [false], and that is the only error it turns
    into a result.  Any other error of a write comes out of [consume] and
    of [checkRateLimit] as it is; the handler then logs it and answers
    [500 Server error], and its run contains no email. *)
Theorem store_fault_fails_the_request env σ n cmd e :
  (∀ pk ttlSeconds,
     ObsPut cmd (inl e) ∈ events (run env (consume TABLE pk ttlSeconds) σ n) →
     result (run env (consume TABLE pk ttlSeconds) σ n) =
     if decide (err_name e = "ConditionalCheckFailedException")
     then inr false else inl e) ∧
  (err_name e ≠ "ConditionalCheckFailedException" →
   (∀ ip,
      ObsPut cmd (inl e) ∈ events (run env (checkRateLimit TABLE LIMIT ip) σ n) →
      result (run env (checkRateLimit TABLE LIMIT ip) σ n) = inl e) ∧
   (∀ event,
      ObsPut cmd (inl e) ∈ events (run env (handle event) σ n) →
      result (run env (handle event) σ n) = inr (respond 500 "Server error") ∧
      mails (events (run env (handle event) σ n)) = [] ∧
      ObsLog "contact error:" e ∈ events (run env (handle event) σ n))).
Proof.
  split; [|intros Hname; split].
  - intros pk ttlSeconds. rewrite run_consume. cbv zeta.
    destruct (ddb_answer env (S n) σ _) as [[e0|[]] σ']; cbn [events result];
      intros Hin;
      repeat (apply elem_of_cons in Hin as [Hin|Hin]; simplify_eq);
      try by apply elem_of_nil in Hin.
    done.
  - intros ip Hin. by eapply checkRateLimit_fault.
  - intros event.
    destruct (handler_cases event) as [[r ->]|[[e0 ->]|(name & email & message & ->)]].
    + cbn. by intros ?%elem_of_nil.
    + cbn. intros Hin.
      repeat (apply elem_of_cons in Hin as [Hin|Hin]; simplify_eq).
      by apply elem_of_nil in Hin.
    + rewrite run_serve. cbv zeta.
      pose proof (checkRateLimit_mails TABLE LIMIT env (ipFromEvent event) σ n)
        as Hmails.
      pose proof (checkRateLimit_fault TABLE LIMIT env (ipFromEvent event) σ n cmd e)
        as Hfault.
      destruct (run env (checkRateLimit TABLE LIMIT (ipFromEvent event)) σ n)
        as [[e0|[|]] σ' tr]; cbn [result events final] in *.
      * intros Hin. apply elem_of_app in Hin as [Hin|Hin].
        -- specialize (Hfault Hin Hname). simplify_eq.
           split_and!; [done| |].
           ++ by rewrite mails_app, Hmails.
           ++ apply elem_of_app. right. by apply list_elem_of_singleton.
        -- apply list_elem_of_singleton in Hin. done.
      * destruct (ses_answer env _) as [e1|[]]; cbn [result events final];
          intros Hin; apply elem_of_app in Hin as [Hin|Hin];
          try (by specialize (Hfault Hin Hname));
          repeat (apply elem_of_cons in Hin as [Hin|Hin]; simplify_eq);
          by apply elem_of_nil in Hin.
      * intros Hin. by specialize (Hfault Hin Hname).
Qed.

End HandlerFacts.

(** ** Schedules are executions *)

Lemma call_exec_step σ c k σ' c' new :
  call_exec σ c k = (σ', c', new) →
  (σ', c', new) = (σ, c, []) ∨ call_step σ c σ' c' new.
Proof.
  destruct c as [ip oh code]. unfold call_exec. cbn [call_ip call_hour call_code].
  destruct code as [b|e|f|cmd f|cmd f|l e f]; intros Heq.
  - left. by simplify_eq.
  - left. by simplify_eq.
  - right. simplify_eq. constructor.
  - right. destruct (tick_fault k) as [e|].
    + simplify_eq. apply step_put_fault.
    + destruct (table_put σ cmd) as [[e|[]] σ''] eqn:Hput; simplify_eq.
      * by apply step_put_fail.
      * by apply step_put_ok.
  - right. simplify_eq. constructor.
  - right. simplify_eq. constructor.
Qed.

Lemma pool_exec_reachable sched p : rtc pool_step p (pool_exec sched p).
Proof.
  revert p. induction sched as [|k sched IH]; intros [σ cs log]; [done|].
  cbn [pool_exec pool_calls pool_table pool_created].
  destruct (cs !! tick_call k) as [c|] eqn:Hc; [|apply IH].
  destruct (call_exec σ c k) as [[σ' c'] new] eqn:Hexec.
  apply call_exec_step in Hexec as [Hsame|Hstep].
  - simplify_eq. rewrite app_nil_r, list_insert_id by done. apply IH.
  - eapply rtc_l; [|apply IH]. by econstructor.
Qed.


(** A run is one of the executions: the call alone in the pool, scheduled
    with the answers of the environment, ends with the result and the
    table of [run]. *)
Lemma run_is_an_execution env (p : prog bool) σ n ip oh log :
  ∃ sched oh' log',
    pool_exec sched (Pool σ [Call ip oh p] log) =
    Pool (final (run env p σ n)) [Call ip oh' (lift (result (run env p σ n)))] log'.
Proof.
  revert σ n oh log.
  induction p as [a|e|k IH|cmd k IH|cmd k IH|l e k IH]; intros σ n oh log.
  - by exists [], oh, log.
  - by exists [], oh, log.
  - destruct (IH (clock env n) σ (S n)
                 (Some (default (window_of (clock env n)) oh)) (log ++ []))
      as (sched & oh' & log' & Hexec).
    exists (Tick 0 (clock env n) None :: sched), oh', log'. exact Hexec.
  - cbn [run]. unfold ddb_answer.
    destruct (ddb_fault env n) as [e|] eqn:Hfault.
    + destruct (IH (inl e) σ (S n) oh (log ++ []))
        as (sched & oh' & log' & Hexec).
      exists (Tick 0 0 (Some e) :: sched), oh', log'. exact Hexec.
    + destruct (table_put σ cmd) as [[e|[]] σ'] eqn:Hput.
      * destruct (IH (inl e) σ' (S n) oh (log ++ []))
          as (sched & oh' & log' & Hexec).
        exists (Tick 0 0 None :: sched), oh', log'.
        cbn [pool_exec pool_calls pool_table pool_created tick_call lookup
             list_lookup call_exec call_code call_ip call_hour tick_fault].
        rewrite Hput. exact Hexec.
      * destruct (IH (inr tt) σ' (S n) oh (log ++ [Creation ip oh (Item_pk cmd)]))
          as (sched & oh' & log' & Hexec).
        exists (Tick 0 0 None :: sched), oh', log'.
        cbn [pool_exec pool_calls pool_table pool_created tick_call lookup
             list_lookup call_exec call_code call_ip call_hour tick_fault].
        rewrite Hput. exact Hexec.
  - destruct (IH (ses_answer env n) σ (S n) oh (log ++ []))
      as (sched & oh' & log' & Hexec).
    exists (Tick 0 0 (ses_fault env n) :: sched), oh', log'.
    unfold ses_answer in Hexec. exact Hexec.
  - destruct (IH σ (S n) oh (log ++ [])) as (sched & oh' & log' & Hexec).
    exists (Tick 0 0 None :: sched), oh', log'. exact Hexec.
Qed.

(* ===================================================================== *)
(** * The properties at work *)

Lemma calm_no_fault ms : no_ddb_fault (calm ms).
Proof. by intros n. Qed.

(** Two racing calls and one slot: one of them wins. *)
Lemma at_most_limit_per_window_witness :
  0 ≤ 1 ∧
  Z.of_nat (wins caller 472222 (pool_calls race)) ≤ 1 ∧
  Z.of_nat (length (creations caller 472222 (pool_created race))) ≤ 1.
Proof.
  split; [lia|].
  apply (at_most_limit_per_window (Some "rate-limits") 1 ∅ [caller; caller]).
  - lia.
  - apply pool_exec_reachable.
Defined.

Example race_has_one_winner :
  wins caller 472222 (pool_calls race) = 1%nat ∧
  creations caller 472222 (pool_created race) = [slot_key caller 472222 1] ∧
  call_code <$> pool_calls race = [Ret false; Ret true].
Proof. by vm_compute. Qed.


Example second_slot_is_claimed :
  let σ : gmap string Z := {[ slot_key caller 472222 1 := 0 ]} in
  let o := run (calm t0) (checkRateLimit (Some "rate-limits") 2 caller) σ 0 in
  result o = inr true ∧
  put_keys (events o) = [slot_key caller 472222 1; slot_key caller 472222 2] ∧
  final o !! slot_key caller 472222 2 = Some 1700003700.
Proof. by vm_compute. Qed.

(** The table is down when the handler writes. *)
Lemma store_fault_fails_the_request_witness :
  let env := outage t0 2 (Error "InternalServerError") in
  let o := run env (scenario_handler 5 contact) ∅ 0 in
  result o = inr (response 500 "https://example.org" "Server error") ∧
  mails (events o) = [] ∧
  ObsLog "contact error:" (Error "InternalServerError") ∈ events o.
Proof.
  intros env o.
  refine (proj2 (proj2 (store_fault_fails_the_request
    (Some "rate-limits") 5 (Some "noreply@example.org") "https://example.org"
    Z (λ x, bool_decide (x ≠ 0)) pretty scenario_parse scenario_trim env ∅ 0
    (consume_cmd (Some "rate-limits") (slot_key caller 472222 1) t0 3700)
    (Error "InternalServerError")) _) contact _).
  - vm_compute. discriminate.
  - vm_compute. do 2 apply list_elem_of_further. apply list_elem_of_here.
Defined.

(** A bot fills in the hidden field. *)
Lemma honeypot_is_silently_accepted_witness :
  run (calm t0) (scenario_handler 5 bot) ∅ 0 =
  Outcome (inr (response 200 "https://example.org" "OK")) ∅ [].
Proof.
  refine (proj2 (honeypot_is_silently_accepted
    (Some "rate-limits") 5 (Some "noreply@example.org") "https://example.org"
    Z (λ x, bool_decide (x ≠ 0)) pretty scenario_parse scenario_trim bot
    (JObject (prod_map id JString <$> bot_fields)) "ACME" (calm t0) ∅ 0
    _ _ _ _ _)).
  - vm_compute. discriminate.
  - split; reflexivity.
  - vm_compute. reflexivity.
  - vm_compute. reflexivity.
  - vm_compute. discriminate.
Defined.

(** The single slot is used; the next call in the same hour is denied. *)
Lemma denial_is_idempotent_witness :
  let σ : gmap string Z := {[ slot_key caller 472222 1 := 0 ]} in
  let o1 := run (calm t0) (checkRateLimit (Some "rate-limits") 1 caller) σ 0 in
  let o2 := run (calm (t0 + 60000))
                (checkRateLimit (Some "rate-limits") 1 caller) (final o1) 7 in
  Forall (λ k, is_Some (final o1 !! k)) (slot_keys caller (window_of t0) 1) ∧
  result o2 = inr false ∧ final o2 = final o1.
Proof.
  intros σ o1 o2.
  apply (denial_is_idempotent (Some "rate-limits") 1 (calm t0) (calm (t0 + 60000))
           caller σ (final o1) 0 7).
  - apply calm_no_fault.
  - apply calm_no_fault.
  - vm_compute. reflexivity.
  - reflexivity.
  - vm_compute. reflexivity.
Defined.

(** Keys of the hour before do not count in this hour. *)
Lemma windows_are_independent_witness :
  let extra : gmap string Z := {[ slot_key caller 472221 1 := 0 ]} in
  let o := run (calm t0) (checkRateLimit (Some "rate-limits") 1 caller) ∅ 0 in
  let o' := run (calm t0) (checkRateLimit (Some "rate-limits") 1 caller)
                (extra ∪ ∅) 0 in
  result o' = result o ∧ events o' = events o ∧ final o' = extra ∪ final o.
Proof.
  intros extra o o'.
  apply (windows_are_independent (Some "rate-limits") 1 (calm t0) caller ∅
           extra 472221 0).
  - vm_compute. discriminate.
  - intros k [z Hz]. apply lookup_singleton_Some in Hz as [<- _].
    by exists caller, 1.
Defined.

Example next_hour_has_its_own_slots :
  let full : gmap string Z := {[ slot_key caller 472222 1 := 0 ]} in
  result (run (calm t0) (checkRateLimit (Some "rate-limits") 1 caller) full 0)
  = inr false ∧
  result (run (calm (t0 + 3600000))
              (checkRateLimit (Some "rate-limits") 1 caller) full 0)
  = inr true.
Proof. by vm_compute. Qed.

(** The expiry of a key created at [t0]. *)
Lemma created_key_expiry_witness :
  let o := run (calm t0) (checkRateLimit (Some "rate-limits") 1 caller) ∅ 0 in
  let cmd := consume_cmd (Some "rate-limits") (slot_key caller 472222 1) t0 3700 in
  ∃ pre' ms,
    [ObsNow t0; ObsNow t0] = pre' ++ [ObsNow ms] ∧
    Item_ttl cmd = ms / 1000 + 3600 + 100 ∧
    (@inr error unit tt = inr tt →
     (∅ : gmap string Z) !! Item_pk cmd = None ∧
     final o = <[Item_pk cmd := ms / 1000 + 3600 + 100]> ∅).
Proof.
  intros o cmd.
  apply (created_key_expiry (Some "rate-limits") 1 (calm t0) caller ∅ 0
           [ObsNow t0; ObsNow t0] cmd (inr tt) []).
  vm_compute. reflexivity.
Defined.

(** A message of blanks, and a body without [name] whose [email] cannot be
    converted to a string. *)
Lemma empty_field_has_no_effect_witness :
  run (calm t0) (scenario_handler 5 blank) ∅ 0 =
  Outcome (inr (response 400 "https://example.org" "Missing fields")) ∅ [] ∧
  run (calm t0)
      (handler (Some "rate-limits") 5 (Some "noreply@example.org")
               "https://example.org" Z (λ x, bool_decide (x ≠ 0)) pretty
               object_parse scenario_trim crafted) ∅ 0 =
  Outcome (inr (response 500 "https://example.org" "Server error")) ∅
          [ObsLog "contact error:" (Error "TypeError")].
Proof.
  split.
  - refine (proj2 (proj2 (proj2 (empty_field_has_no_effect
      (Some "rate-limits") 5 (Some "noreply@example.org") "https://example.org"
      Z (λ x, bool_decide (x ≠ 0)) pretty scenario_parse scenario_trim blank
      (JObject (prod_map id JString <$> blank_fields))
      (calm t0) ∅ 0 _ _ _ _ _)))).
    + vm_compute. discriminate.
    + split; reflexivity.
    + vm_compute. reflexivity.
    + vm_compute. reflexivity.
    + right. right. vm_compute. reflexivity.
  - refine (proj2 (proj2 (proj2 (empty_field_has_no_effect
      (Some "rate-limits") 5 (Some "noreply@example.org") "https://example.org"
      Z (λ x, bool_decide (x ≠ 0)) pretty object_parse scenario_trim crafted
      crafted_value (calm t0) ∅ 0 _ _ _ _ _)))).
    + vm_compute. discriminate.
    + split; reflexivity.
    + vm_compute. reflexivity.
    + vm_compute. reflexivity.
    + left. vm_compute. reflexivity.
Defined.

(** The request [crafted] has an empty honeypot field and an empty [name],
    and is not answered [400]: converting its [email] throws, and the
    answer is the logged [500]. *)
Lemma missing_field_can_be_a_server_error :
  request_method crafted ≠ Some "OPTIONS" ∧
  object_parse (request_body crafted) = inr crafted_value ∧
  field Z (λ x, bool_decide (x ≠ 0)) pretty scenario_trim crafted_value "company"
  = inr "" ∧
  field Z (λ x, bool_decide (x ≠ 0)) pretty scenario_trim crafted_value "name"
  = inr "" ∧
  run (calm t0)
      (handler (Some "rate-limits") 5 (Some "noreply@example.org")
               "https://example.org" Z (λ x, bool_decide (x ≠ 0)) pretty
               object_parse scenario_trim crafted) ∅ 0 =
  Outcome (inr (response 500 "https://example.org" "Server error")) ∅
          [ObsLog "contact error:" (Error "TypeError")] ∧
  sum_map id statusCode
    (result (run (calm t0)
       (handler (Some "rate-limits") 5 (Some "noreply@example.org")
                "https://example.org" Z (λ x, bool_decide (x ≠ 0)) pretty
                object_parse scenario_trim crafted) ∅ 0)) ≠ inr 400.
Proof.
  split_and!; try (vm_compute; reflexivity).
  - vm_compute. discriminate.
  - vm_compute. discriminate.
Qed.

(** A body that is not JSON, and no body at all. *)
Lemma malformed_body_is_server_error_witness :
  run (calm t0) (scenario_handler 5 garbled) ∅ 0 =
  Outcome (inr (response 500 "https://example.org" "Server error")) ∅
          [ObsLog "contact error:" (Error "SyntaxError")] ∧
  run (calm t0) (scenario_handler 5 (post_from (Some caller) None)) ∅ 0 =
  Outcome (inr (response 400 "https://example.org" "Missing fields")) ∅ [].
Proof.
  split.
  - refine (proj1 (malformed_body_is_server_error
      (Some "rate-limits") 5 (Some "noreply@example.org") "https://example.org"
      Z (λ x, bool_decide (x ≠ 0)) pretty scenario_parse scenario_trim garbled
      (calm t0) ∅ 0 _ _) "{oops" (Error "SyntaxError") _ _ _).
    + vm_compute. discriminate.
    + split; reflexivity.
    + reflexivity.
    + vm_compute. discriminate.
    + vm_compute. reflexivity.
  - refine (proj2 (malformed_body_is_server_error
      (Some "rate-limits") 5 (Some "noreply@example.org") "https://example.org"
      Z (λ x, bool_decide (x ≠ 0)) pretty scenario_parse scenario_trim
      (post_from (Some caller) None) (calm t0) ∅ 0 _ _) _ _ _).
    + vm_compute. discriminate.
    + split; reflexivity.
    + left. reflexivity.
    + vm_compute. reflexivity.
    + vm_compute. reflexivity.
Defined.

Example anonymous_requests_share_one_quota :
  fst (replay (calm t0) (scenario_handler 1)
              [anonymous; post_from None (Some (json_text message_fields))] ∅ 0)
  = [inr 200; inr 429].
Proof. by vm_compute. Qed.

(** ** The scenarios of the documentation *)

Example five_per_hour :
  fst (replay (calm t0) (scenario_handler 5) (replicate 6 contact) ∅ 0)
  = [inr 200; inr 200; inr 200; inr 200; inr 200; inr 429].
Proof. by vm_compute. Qed.

Example documented_key :
  slot_key "203.0.113.10" 473290 1 = "ip#203.0.113.10#hour#473290#slot#1".
Proof. by vm_compute. Qed.

(* ===================================================================== *)
(** * Further properties *)

(** ** Keys and identities *)

(** X18.  Two slot keys are equal only if they are the key of the same
    identity, window and slot, whatever characters the identity contains. *)
Theorem slot_key_names_one_slot ip ip' h h' i i' :
  slot_key ip h i = slot_key ip' h' i' ↔ ip = ip' ∧ h = h' ∧ i = i'.
Proof.
  split; [apply slot_key_inj|]. by intros (-> & -> & ->).
Qed.

(** X8.  Slot keys of another identity, of whatever window and slot, make
    no difference to a call: it returns the same result after the same
    writes, and the table it leaves differs only by those keys. *)
Theorem identities_are_independent TABLE LIMIT env ip σ extra ip' n :
  let o := run env (checkRateLimit TABLE LIMIT ip) σ n in
  let o' := run env (checkRateLimit TABLE LIMIT ip) (extra ∪ σ) n in
  ip' ≠ ip →
  (∀ k, is_Some (extra !! k) → ∃ w j, k = slot_key ip' w j) →
  result o' = result o ∧ events o' = events o ∧ final o' = extra ∪ final o.
Proof.
  cbv zeta. intros Hip Hextra. rewrite !run_checkRateLimit.
  cbn [result events final seen].
  set (h := window_of (clock env n)) in *.
  assert (∀ j, extra !! slot_key ip h j = None) as Hfresh.
  { intros j. apply eq_None_not_Some. intros Hin.
    destruct (Hextra _ Hin) as (w & j' & Heq).
    apply slot_key_inj in Heq as (? & _ & _). done. }
  pose proof (run_for_slots TABLE env ip h (Z.to_nat LIMIT) 1 σ (S n)) as Hp.
  pose proof (run_for_slots TABLE env ip h (Z.to_nat LIMIT) 1 (extra ∪ σ) (S n))
    as Hp'.
  apply (probes_frame _ _ _ _ _ _ _ _ _ _ _ extra Hfresh) in Hp.
  destruct (probes_det _ _ _ _ _ _ _ _ _ _ _ _ _ _ Hp' Hp) as (-> & -> & ->).
  done.
Qed.

(** ** What a call does to the table, and at what cost *)

Lemma put_in_put_keys cmd r tr :
  ObsPut cmd r ∈ tr → Item_pk cmd ∈ put_keys tr.
Proof.
  intros Hin. unfold put_keys. apply list_elem_of_omap.
  by exists (ObsPut cmd r).
Qed.


Lemma probes_length TABLE env ip h i n m σ tr r σ' :
  probes TABLE env ip h i n m σ tr r σ' →
  length tr = (2 * length (put_keys tr))%nat ∧ (length (put_keys tr) ≤ n)%nat.
Proof.
  induction 1 as
    [i m σ|i n m σ cmd σ' -> Hans|i n m σ cmd e tr r σ' -> Hans Hname _ IH
    |i n m σ cmd e -> Hans Hname]; rewrite ?put_keys_probe;
    change (put_keys []) with (@nil string); cbn [length]; lia.
Qed.


(** X10.  A call reads the clock once and then, for each slot it tries,
    reads the clock and sends one conditional write: at most [LIMIT]
    writes, and twice as many effects plus one. *)
Theorem call_costs_at_most_limit_writes TABLE LIMIT env ip σ n :
  let tr := events (run env (checkRateLimit TABLE LIMIT ip) σ n) in
  (length (put_keys tr) ≤ Z.to_nat LIMIT)%nat ∧
  length tr = (1 + 2 * length (put_keys tr))%nat.
Proof.
  cbv zeta. rewrite run_checkRateLimit. cbn [events seen].
  change (put_keys (?o :: ?tr)) with (put_keys tr).
  destruct (probes_length _ _ _ _ _ _ _ _ _ _ _
              (run_for_slots TABLE env ip (window_of (clock env n))
                             (Z.to_nat LIMIT) 1 σ (S n))) as [Hlen Hle].
  cbn [length]. lia.
Qed.

(** ** A key is claimed once *)

(** X11.  A conditional write for a key that is not in the table, on a
    table that answers, makes [consume] return [true] and leaves the key
    with the expiry of that moment.  From then on, as long as the table
    keeps the key, [consume] of the same key returns [false] and changes
    nothing: the expiry of the key is not renewed. *)
Theorem consume_claims_a_key_once TABLE env1 env2 pk t1 t2 σ1 σ2 n1 n2 :
  let o1 := run env1 (consume TABLE pk t1) σ1 n1 in
  let o2 := run env2 (consume TABLE pk t2) σ2 n2 in
  ddb_fault env1 (S n1) = None → ddb_fault env2 (S n2) = None →
  σ1 !! pk = None →
  final o1 ⊆ σ2 →
  result o1 = inr true ∧
  final o1 = <[pk := clock env1 n1 / 1000 + t1]> σ1 ∧
  result o2 = inr false ∧ final o2 = σ2.
Proof.
  cbv zeta. rewrite !run_consume. cbv zeta. unfold ddb_answer.
  intros -> -> Hnone. rewrite !table_put_consume_cmd, Hnone.
  cbn [final result]. intros Hsub.
  assert (is_Some (σ2 !! pk)) as [z Hz].
  { exists (clock env1 n1 / 1000 + t1).
    eapply lookup_weaken; [|done]. by rewrite lookup_insert_eq. }
  rewrite Hz. cbn [final result]. by rewrite decide_True.
Qed.

(** ** The quota, call after call *)

Lemma slot_keys_NoDup ip w LIMIT : NoDup (slot_keys ip w LIMIT).
Proof.
  unfold slot_keys. apply NoDup_fmap_2_strong; [|apply NoDup_seqZ].
  intros i i' _ _ Heq. by apply slot_key_inj in Heq as (_ & _ & ?).
Qed.

Lemma slot_keys_length ip w LIMIT :
  length (slot_keys ip w LIMIT) = Z.to_nat LIMIT.
Proof. unfold slot_keys. by rewrite length_fmap, length_seqZ. Qed.

Lemma list_find_filled σ keys j :
  filled σ keys j → (j < length keys)%nat →
  ∃ k, keys !! j = Some k ∧
       list_find (λ k, σ !! k = None) keys = Some (j, k).
Proof.
  intros [Htake Hdrop] Hj.
  destruct (lookup_lt_is_Some_2 keys j Hj) as [k Hk]. exists k. split; [done|].
  apply list_find_Some. split_and!; [done| |].
  - rewrite Forall_forall in Hdrop. apply Hdrop.
    apply list_elem_of_lookup. exists 0%nat. by rewrite lookup_drop, Nat.add_0_r.
  - intros j' y Hy Hlt Hnone.
    destruct (Forall_lookup_1 _ _ j' y Htake) as [z Hz]; [|congruence].
    by rewrite lookup_take_lt.
Qed.

Lemma list_find_full σ keys :
  filled σ keys (length keys) → list_find (λ k, σ !! k = None) keys = None.
Proof.
  intros [Htake _]. rewrite firstn_all in Htake.
  apply list_find_None. eapply Forall_impl; [done|].
  intros k [z Hz]. cbn. congruence.
Qed.

Lemma filled_next σ keys j k v :
  NoDup keys → filled σ keys j → keys !! j = Some k →
  filled (<[k := v]> σ) keys (S j).
Proof.
  intros Hnd [Htake Hdrop] Hk. split.
  - rewrite (take_S_r _ _ _ Hk). apply Forall_app. split.
    + eapply Forall_impl; [done|]. intros y Hy. by apply table_grows.
    + apply Forall_singleton. rewrite lookup_insert_eq. by eexists.
  - rewrite <-(take_drop_middle _ _ _ Hk) in Hnd.
    apply NoDup_app in Hnd as (_ & _ & Hnd). apply NoDup_cons in Hnd as [Hnotin _].
    rewrite (drop_S _ _ _ Hk) in Hdrop. apply Forall_cons in Hdrop as [_ Hdrop].
    rewrite Forall_forall in Hdrop |- *. intros y Hy.
    rewrite lookup_insert_ne; [by apply Hdrop|]. by intros ->.
Qed.

Lemma acquire_S TABLE LIMIT env ip k σ n :
  fst (acquire TABLE LIMIT env ip (S k) σ n) =
  result (run env (checkRateLimit TABLE LIMIT ip) σ n)
  :: fst (acquire TABLE LIMIT env ip k
                  (final (run env (checkRateLimit TABLE LIMIT ip) σ n))
                  (n + length (events (run env (checkRateLimit TABLE LIMIT ip) σ n)))).
Proof. cbn [acquire]. by destruct (acquire _ _ _ _ _ _ _). Qed.

Lemma acquire_filled TABLE LIMIT env ip w k σ n j :
  no_ddb_fault env →
  (∀ m, window_of (clock env m) = w) →
  filled σ (slot_keys ip w LIMIT) j → (j ≤ Z.to_nat LIMIT)%nat →
  fst (acquire TABLE LIMIT env ip k σ n) =
  replicate (k `min` (Z.to_nat LIMIT - j)) (inr true) ++
  replicate (k - (Z.to_nat LIMIT - j)) (inr false).
Proof.
  intros Hnf Hw. revert σ n j. induction k as [|k IH]; intros σ n j Hfill Hj.
  { done. }
  rewrite acquire_S.
  pose proof (checkRateLimit_probes TABLE LIMIT env ip σ n Hnf) as Hp.
  cbv zeta in Hp. rewrite Hw in Hp.
  destruct (decide (j < Z.to_nat LIMIT)%nat) as [Hlt|Hge].
  - destruct (list_find_filled σ (slot_keys ip w LIMIT) j Hfill) as (key & Hkey & Hfind).
    { by rewrite slot_keys_length. }
    rewrite Hfind in Hp. destruct Hp as (-> & _ & ->).
    rewrite (IH _ _ (S j)); [|by apply filled_next; [apply slot_keys_NoDup|..]|lia].
    replace (S k `min` (Z.to_nat LIMIT - j))%nat
      with (S (k `min` (Z.to_nat LIMIT - S j)))%nat by lia.
    replace (S k - (Z.to_nat LIMIT - j))%nat
      with (k - (Z.to_nat LIMIT - S j))%nat by lia.
    done.
  - assert (j = Z.to_nat LIMIT) as -> by lia.
    rewrite list_find_full in Hp by (by rewrite slot_keys_length).
    destruct Hp as (-> & _ & ->).
    rewrite (IH _ _ (Z.to_nat LIMIT)) by done.
    replace (Z.to_nat LIMIT - Z.to_nat LIMIT)%nat with 0%nat by lia.
    rewrite !Nat.min_0_r, !Nat.sub_0_r. done.
Qed.

(** X12.  Calls of one identity, made one after the other within one
    window on a table that answers and that holds none of the slot keys of
    that identity and window: the first [LIMIT] calls return [true] and all
    the calls after them return [false]. *)
Theorem quota_is_served_then_denied TABLE LIMIT env ip w k σ n :
  no_ddb_fault env →
  (∀ m, window_of (clock env m) = w) →
  Forall (λ key, σ !! key = None) (slot_keys ip w LIMIT) →
  fst (acquire TABLE LIMIT env ip k σ n) =
  replicate (k `min` Z.to_nat LIMIT) (inr true) ++
  replicate (k - Z.to_nat LIMIT) (inr false).
Proof.
  intros Hnf Hw Hfree.
  rewrite (acquire_filled TABLE LIMIT env ip w k σ n 0 Hnf Hw); [|by split|lia].
  by rewrite Nat.sub_0_r.
Qed.

(** ** No denial before the quota is used *)

Lemma probing_grows TABLE LIMIT σ σ' ip oh code :
  (∀ k, is_Some (σ !! k) → is_Some (σ' !! k)) →
  probing TABLE LIMIT σ ip oh code → probing TABLE LIMIT σ' ip oh code.
Proof.
  intros Hgrow. destruct 1; constructor; auto.
Qed.

Lemma probing_denied TABLE LIMIT σ ip h :
  probing TABLE LIMIT σ ip (Some h) (Ret false) →
  Forall (λ key, is_Some (σ !! key)) (slot_keys ip h LIMIT).
Proof.
  intros Hp. remember (Ret false) as code eqn:Hcode.
  remember (Some h) as oh eqn:Hoh.
  destruct Hp as [|h' n i [Hi Hn] Hseen|h' n i ms Hleft Hseen|h']; simplify_eq.
  destruct n as [|n]; [|by rewrite for_slots_unfold in Hcode].
  unfold slot_keys. apply Forall_fmap, Forall_forall. intros j Hj.
  apply elem_of_seqZ in Hj. apply Hseen. lia.
Qed.

(** One step of one call when the table answers: the call keeps knowing
    what it has seen, the table only gains keys, and the key it may gain is
    the one the step records. *)
Lemma call_exec_probing TABLE LIMIT σ c k σ' c' new :
  tick_fault k = None →
  probing TABLE LIMIT σ (call_ip c) (call_hour c) (call_code c) →
  call_exec σ c k = (σ', c', new) →
  probing TABLE LIMIT σ' (call_ip c') (call_hour c') (call_code c') ∧
  call_ip c' = call_ip c ∧
  (∀ key, is_Some (σ !! key) → is_Some (σ' !! key)) ∧
  (∀ key, is_Some (σ' !! key) →
          is_Some (σ !! key) ∨ key ∈ made_pk <$> new).
Proof.
  destruct c as [ip oh code]. cbn [call_ip call_hour call_code].
  intros Hquiet Hp. unfold call_exec. cbn [call_ip call_hour call_code].
  rewrite Hquiet.
  destruct Hp as [|h n i Hleft Hseen|h n i ms Hleft Hseen|h].
  - rewrite checkRateLimit_unfold. intros [= <- <- <-].
    cbn [call_ip call_hour call_code default from_option id].
    split_and!; [|done|done|by left].
    apply pr_loop; [apply slots_left_first|]. intros j Hj. lia.
  - destruct n as [|n].
    + cbn [for_slots]. intros [= <- <- <-]. cbn [call_ip call_hour call_code].
      split_and!; [|done|done|by left].
      by apply (pr_loop TABLE LIMIT σ ip h 0 i).
    + rewrite for_slots_unfold. intros [= <- <- <-].
      cbn [call_ip call_hour call_code default from_option id].
      split_and!; [|done|done|by left]. by apply pr_write.
  - rewrite table_put_consume_cmd.
    destruct (σ !! slot_key ip h i) as [z|] eqn:Hk; intros [= <- <- <-];
      cbn [call_ip call_hour call_code].
    + rewrite after_write_error, decide_True by done.
      split_and!; [|done|done|by left].
      apply pr_loop; [by apply slots_left_next|]. intros j Hj.
      destruct (decide (j = i)) as [->|]; [by eexists|]. apply Hseen. lia.
    + rewrite after_write_ok.
      split_and!; [apply pr_true|done| |].
      * intros key Hkey. by apply table_grows.
      * intros key Hkey. apply lookup_insert_is_Some in Hkey as [<-|[_ Hkey]].
        -- right. cbn. apply list_elem_of_here.
        -- by left.
  - intros [= <- <- <-]. cbn [call_ip call_hour call_code].
    split_and!; [apply pr_true|done|done|by left].
Qed.

Lemma quiet_inv_init TABLE LIMIT σ0 ips :
  quiet_inv TABLE LIMIT σ0 ips (init_pool TABLE LIMIT σ0 ips).
Proof.
  unfold init_pool. split; cbn [pool_calls pool_created pool_table].
  - apply Forall_fmap, Forall_forall. intros ip _. apply pr_start.
  - by left.
  - rewrite <-list_fmap_compose. by rewrite list_fmap_id.
Qed.

Lemma quiet_inv_exec TABLE LIMIT σ0 ips sched p :
  Forall (λ k, tick_fault k = None) sched →
  quiet_inv TABLE LIMIT σ0 ips p →
  quiet_inv TABLE LIMIT σ0 ips (pool_exec sched p).
Proof.
  intros Hquiet. revert p.
  induction Hquiet as [|k sched Hk _ IH]; intros [σ cs log] Hinv; [done|].
  cbn [pool_exec pool_calls pool_table pool_created].
  destruct (cs !! tick_call k) as [c|] eqn:Hc; [|by apply IH].
  destruct (call_exec σ c k) as [[σ' c'] new] eqn:Hexec. apply IH.
  destruct Hinv as [Hcalls Horigin Hips].
  cbn [pool_calls pool_table pool_created] in *.
  pose proof (Forall_lookup_1 _ _ _ _ Hcalls Hc) as Hp. cbn in Hp.
  destruct (call_exec_probing _ _ _ _ _ _ _ _ Hk Hp Hexec)
    as (Hp' & Hip & Hgrow & Hnew).
  split; cbn [pool_calls pool_table pool_created].
  - apply Forall_insert; [|done]. eapply Forall_impl; [done|].
    intros c0 Hc0. by eapply probing_grows.
  - intros key Hkey. destruct (Hnew key Hkey) as [Hold|Hin].
    + destruct (Horigin key Hold) as [?|Hin]; [by left|right].
      rewrite fmap_app. apply elem_of_app. by left.
    + right. rewrite fmap_app. apply elem_of_app. by right.
  - rewrite list_fmap_insert, Hip, <-Hips. apply list_insert_id.
    by rewrite list_lookup_fmap, Hc.
Qed.

Lemma wins_match_creations TABLE LIMIT σ ips p :
  rtc pool_step (init_pool TABLE LIMIT σ ips) p →
  ∀ ip w, wins ip w (pool_calls p) = length (creations ip w (pool_created p)).
Proof.
  intros Hrtc. revert p Hrtc.
  apply (rtc_ind_r (λ p, ∀ ip w, wins ip w (pool_calls p) =
                                 length (creations ip w (pool_created p)))).
  - intros ip w. pose proof (inv_wins _ _ _ (pool_inv_init TABLE LIMIT σ ips) ip w).
    unfold init_pool in *. cbn [pool_calls pool_created] in *.
    change (creations ip w []) with (@nil string) in *. cbn [length] in *. lia.
  - intros p p' Hreach Hstep Heq ip w.
    apply pool_inv_reachable in Hreach as [Hcalls _ _ _ _].
    destruct Hstep as [σ' cs log t c σ'' c' new Ht Hc].
    cbn [pool_calls pool_created pool_table] in *.
    pose proof (Forall_lookup_1 _ _ _ _ Hcalls Ht) as Hfl. cbn in Hfl.
    pose proof (wins_insert ip w cs t c c' Ht) as Hins. unfold won in Hins.
    specialize (Heq ip w).
    destruct (call_step_in_flight _ _ _ _ _ _ _ Hfl Hc)
      as (_ & Hnot & [(-> & Hnot' & _)|(h & pk & ttl & Hh & -> & _ & _ & _ & Hwon)]).
    + rewrite app_nil_r. rewrite Hnot, Hnot', !andb_false_r in Hins. lia.
    + rewrite creations_snoc, length_app.
      rewrite Hnot, Hwon, Hh, andb_false_r, andb_true_r in Hins.
      unfold made_for. cbn [made_ip made_hour made_pk].
      destruct (bool_decide (call_ip c' = ip) && bool_decide (Some h = Some w));
        cbn [length]; lia.
Qed.

Lemma wins_at_most_calls ip w cs :
  (wins ip w cs ≤ length (filter (λ x, x = ip) (call_ip <$> cs)))%nat.
Proof.
  induction cs as [|c cs IH]; [done|].
  rewrite wins_cons, fmap_cons, filter_cons. unfold won.
  case_decide as Hip; cbn [length].
  - destruct (_ && _); lia.
  - rewrite bool_decide_eq_false_2 by done. cbn. lia.
Qed.

Lemma wins_below_calls ip w cs t c :
  cs !! t = Some c → call_ip c = ip → won ip w c = false →
  (wins ip w cs < length (filter (λ x, x = ip) (call_ip <$> cs)))%nat.
Proof.
  revert t. induction cs as [|c0 cs IH]; intros [|t] Hc Hip Hwon; simplify_eq/=.
  - rewrite wins_cons, Hwon, filter_cons, decide_True by done. cbn [length].
    pose proof (wins_at_most_calls (call_ip c) w cs). lia.
  - rewrite wins_cons, filter_cons. specialize (IH t Hc eq_refl Hwon).
    unfold won. case_decide as Hip; cbn [length].
    + destruct (_ && _); lia.
    + rewrite bool_decide_eq_false_2 by done. cbn. lia.
Qed.

(** X13.  Calls interleaved in any order on a table that answers, started
    on a table that holds none of the slot keys of an identity and window:
    a call of that identity and window is denied only when [LIMIT] calls of
    that identity and window have returned [true] — so more than [LIMIT]
    calls of that identity were made.  With at most [LIMIT] of them, none
    is denied. *)
Theorem denial_means_the_quota_is_used TABLE LIMIT σ0 ips sched ip w t :
  let p := pool_exec sched (init_pool TABLE LIMIT σ0 ips) in
  Forall (λ k, tick_fault k = None) sched →
  Forall (λ key, σ0 !! key = None) (slot_keys ip w LIMIT) →
  pool_calls p !! t = Some (Call ip (Some w) (Ret false)) →
  wins ip w (pool_calls p) = Z.to_nat LIMIT ∧
  (Z.to_nat LIMIT < length (filter (λ x, x = ip) ips))%nat.
Proof.
  cbv zeta. intros Hquiet Hfree Ht.
  set (p := pool_exec sched (init_pool TABLE LIMIT σ0 ips)) in *.
  pose proof (pool_exec_reachable sched (init_pool TABLE LIMIT σ0 ips)) as Hreach.
  fold p in Hreach.
  pose proof (pool_inv_reachable _ _ _ _ _ Hreach) as Hinv.
  pose proof (wins_match_creations _ _ _ _ _ Hreach ip w) as Hwins.
  pose proof (quiet_inv_exec _ _ _ _ sched _ Hquiet
                (quiet_inv_init TABLE LIMIT σ0 ips)) as [Hcalls Horigin Hips].
  fold p in Hcalls, Horigin, Hips.
  pose proof (Forall_lookup_1 _ _ _ _ Hcalls Ht) as Hp.
  cbn [call_ip call_hour call_code] in Hp. apply probing_denied in Hp.
  assert (wins ip w (pool_calls p) = Z.to_nat LIMIT) as Hfull.
  { rewrite Hwins. apply Nat.le_antisymm; [by eapply creations_bounded|].
    rewrite <-(slot_keys_length ip w LIMIT).
    apply submseteq_length, NoDup_submseteq; [apply slot_keys_NoDup|].
    intros key Hkey.
    rewrite Forall_forall in Hp, Hfree.
    destruct (Horigin key (Hp key Hkey)) as [[z Hz]|Hmade].
    { specialize (Hfree key Hkey). congruence. }
    apply list_elem_of_fmap in Hmade as (m & -> & Hm).
    destruct (inv_keys _ _ _ Hinv m Hm) as (h & Hh & Hin).
    unfold slot_keys in Hkey, Hin.
    apply list_elem_of_fmap in Hkey as (j & Hj & _).
    apply list_elem_of_fmap in Hin as (j' & Hj' & _).
    rewrite Hj' in Hj. apply slot_key_inj in Hj as (Hip & -> & _).
    unfold creations. apply list_elem_of_fmap. exists m. split; [done|].
    apply list_elem_of_filter. split; [|done].
    unfold made_for. rewrite Hip, Hh. by rewrite !bool_decide_eq_true_2. }
  split; [done|]. rewrite <-Hfull, <-Hips.
  eapply wins_below_calls; [done..|]. unfold won. cbn. by rewrite andb_false_r.
Qed.


(** ** Expiry and the end of the window *)

(** X19.  On a clock that does not run backwards, every key a call writes
    is due at least 100 seconds after the end of the window the call read:
    a key cannot expire while its window lasts. *)
Theorem key_outlives_its_window TABLE LIMIT env ip σ n cmd res :
  (∀ a b, (a ≤ b)%nat → clock env a ≤ clock env b) →
  ObsPut cmd res ∈ events (run env (checkRateLimit TABLE LIMIT ip) σ n) →
  3600 * (window_of (clock env n) + 1) + 100 ≤ Item_ttl cmd.
Proof.
  intros Hmono. rewrite run_checkRateLimit. cbn [events seen].
  intros Hin. apply elem_of_cons in Hin as [Hin|Hin]; simplify_eq.
  pose proof (probes_outlive _ _ _ _ _ _ _ _ _ _ _ _ _ Hmono
                (run_for_slots TABLE env ip (window_of (clock env n))
                               (Z.to_nat LIMIT) 1 σ (S n)) Hin) as Httl.
  assert (clock env n ≤ clock env (S n)) by (apply Hmono; lia).
  assert (clock env n / 1000 ≤ clock env (S n) / 1000)
    by (apply Z.div_le_mono; lia).
  pose proof (Z.mul_div_le (clock env n / 1000) 3600 ltac:(lia)).
  unfold window_of. lia.
Qed.

(** ** The address of the caller *)

(** X7.  [ipFromEvent] never returns the empty string.  It returns the
    address of the HTTP API shape when that is present and not empty, and
    otherwise the address of the REST shape when that is present and not
    empty. *)
Theorem ipFromEvent_prefers_http event :
  ipFromEvent event ≠ "" ∧
  (∀ s, Some event ?> requestContext ?> http ?> http_sourceIp = Some s →
        s ≠ "" → ipFromEvent event = s) ∧
  (∀ s, Some event ?> requestContext ?> http ?> http_sourceIp = None ∨
        Some event ?> requestContext ?> http ?> http_sourceIp = Some "" →
        Some event ?> requestContext ?> identity ?> identity_sourceIp = Some s →
        s ≠ "" → ipFromEvent event = s).
Proof.
  unfold ipFromEvent, js_or. split_and!.
  - destruct (Some event ?> requestContext ?> http ?> http_sourceIp) as [a|],
      (Some event ?> requestContext ?> identity ?> identity_sourceIp) as [b|];
      repeat case_decide; cbn; congruence.
  - intros s -> Hs. repeat case_decide; cbn; congruence.
  - intros s [-> | ->] -> Hs; repeat case_decide; cbn; congruence.
Qed.

(** ** A successful call leaves its key *)

Lemma probes_true TABLE env ip h i n m σ tr σ' :
  probes TABLE env ip h i n m σ tr (inr true) σ' →
  ∃ cmd, ObsPut cmd (inr tt) ∈ tr ∧ σ' !! Item_pk cmd = Some (Item_ttl cmd).
Proof.
  remember (inr true) as r eqn:Hr. induction 1 as
    [i m σ|i n m σ cmd σ' -> Hans|i n m σ cmd e tr r σ' -> Hans Hname _ IH
    |i n m σ cmd e -> Hans Hname]; simplify_eq.
  - eexists. split; [apply list_elem_of_further, list_elem_of_here|].
    apply ddb_answer_inr in Hans as [_ ->]. by rewrite lookup_insert_eq.
  - destruct (IH eq_refl) as (cmd & Hin & Hk). exists cmd.
    split; [by do 2 apply list_elem_of_further|done].
Qed.

Lemma checkRateLimit_true TABLE LIMIT env ip σ n :
  result (run env (checkRateLimit TABLE LIMIT ip) σ n) = inr true →
  ∃ cmd,
    ObsPut cmd (inr tt) ∈ events (run env (checkRateLimit TABLE LIMIT ip) σ n) ∧
    Item_pk cmd ∈ slot_keys ip (window_of (clock env n)) LIMIT ∧
    final (run env (checkRateLimit TABLE LIMIT ip) σ n) !! Item_pk cmd =
    Some (Item_ttl cmd).
Proof.
  destruct (checkRateLimit_put_keys TABLE LIMIT env ip σ n) as [j Hj].
  revert Hj. rewrite run_checkRateLimit. cbn [events seen result final].
  change (put_keys (?o :: ?tr)) with (put_keys tr).
  intros Hj Hres.
  pose proof (run_for_slots TABLE env ip (window_of (clock env n))
                (Z.to_nat LIMIT) 1 σ (S n)) as Hp.
  cbv zeta in Hp. rewrite Hres in Hp.
  destruct (probes_true _ _ _ _ _ _ _ _ _ _ Hp) as (cmd & Hin & Hk).
  exists cmd. split_and!; [by apply list_elem_of_further| |done].
  apply put_in_put_keys in Hin. rewrite Hj in Hin.
  by eapply subseteq_take.
Qed.

(** ** The answers of the handler *)

Section HandlerAnswers.

Context (TABLE : option string) (LIMIT : Z) (FROM_EMAIL : option string)
        (ALLOWED_ORIGIN : string) (number : Type)
        (Number_truthy : number → bool) (Number_toString : number → string)
        (JSON_parse : string → error + json number) (trim : string → string).

Local Abbreviation handle' :=
  (handler TABLE LIMIT FROM_EMAIL ALLOWED_ORIGIN number Number_truthy
           Number_toString JSON_parse trim).
Local Abbreviation field' :=
  (field number Number_truthy Number_toString trim).
Local Abbreviation respond' status text :=
  (response status ALLOWED_ORIGIN text).
Local Abbreviation submission' :=
  (submission TABLE FROM_EMAIL number Number_truthy Number_toString
              JSON_parse trim).

(** The answers the handler gives before it gets to the rate limit. *)
Lemma handler_early_answers event :
  (∃ status text,
     handle' event = Ret (respond' status text) ∧
     status ∈ [200; 204; 400; 429; 500]) ∨
  (∃ e, handle' event = on_error ALLOWED_ORIGIN e) ∨
  (∃ name email message,
     handle' event =
     try_catch (serve TABLE LIMIT FROM_EMAIL ALLOWED_ORIGIN
                      (ipFromEvent event) name email message)
               (on_error ALLOWED_ORIGIN)).
Proof.
  unfold handler. case_decide.
  { left. exists 204, "". split; [done|set_solver]. }
  destruct (js_not TABLE).
  { left. exists 500, "RATE_TABLE not set". split; [done|set_solver]. }
  destruct (js_not FROM_EMAIL).
  { left. exists 500, "FROM_EMAIL not set". split; [done|set_solver]. }
  destruct (JSON_parse _) as [e|parsed]; [by right; left; exists e|]. cbn.
  destruct (field' parsed "company") as [e|company];
    [by right; left; exists e|]. cbn.
  destruct (negb _).
  { left. exists 200, "OK". split; [done|set_solver]. }
  destruct (field' parsed "name") as [e|name];
    [by right; left; exists e|]. cbn.
  destruct (field' parsed "email") as [e|email];
    [by right; left; exists e|]. cbn.
  destruct (field' parsed "message") as [e|message];
    [by right; left; exists e|]. cbn.
  destruct (_ || _).
  { left. exists 400, "Missing fields". split; [done|set_solver]. }
  right; right. by exists name, email, message.
Qed.

Lemma handler_of_submission event name email message :
  submission' event name email message →
  handle' event =
  try_catch (serve TABLE LIMIT FROM_EMAIL ALLOWED_ORIGIN
                   (ipFromEvent event) name email message)
            (on_error ALLOWED_ORIGIN).
Proof.
  unfold submission, request_method, request_body, configured.
  intros (Hm & [HT HF] & parsed & Hparse & Hc & Hn & Hn' & He & He' & Hmsg & Hmsg').
  unfold handler. rewrite decide_False, HT, HF, Hparse by done. cbn.
  rewrite Hc. cbn. rewrite Hn. cbn. rewrite He. cbn. rewrite Hmsg. cbn.
  rewrite (bool_decide_eq_true_2 ("" = "")) by done.
  by rewrite !bool_decide_eq_false_2 by done.
Qed.

(** X1.  A request whose method is [OPTIONS], in either shape of the event,
    is answered [204] with the CORS headers and an empty body.  Nothing
    else is looked at: not the configuration, not the body. *)
Theorem preflight_is_answered_at_once event env σ n :
  request_method event = Some "OPTIONS" →
  handle' event = Ret (respond' 204 "") ∧
  run env (handle' event) σ n = Outcome (inr (respond' 204 "")) σ [].
Proof.
  unfold request_method. intros Hm.
  assert (handle' event = Ret (respond' 204 "")) as ->; [|done].
  unfold handler. by rewrite decide_True.
Qed.

(** X2.  For a request other than a preflight the handler first looks at
    its configuration: without [RATE_TABLE] it answers [500 RATE_TABLE not
    set], and with it but without [FROM_EMAIL] it answers [500 FROM_EMAIL
    not set].  In both cases the body is not parsed and nothing is logged,
    written or sent. *)
Theorem missing_configuration_is_reported event env σ n :
  request_method event ≠ Some "OPTIONS" →
  (js_not TABLE = true →
   run env (handle' event) σ n =
   Outcome (inr (respond' 500 "RATE_TABLE not set")) σ []) ∧
  (js_not TABLE = false → js_not FROM_EMAIL = true →
   run env (handle' event) σ n =
   Outcome (inr (respond' 500 "FROM_EMAIL not set")) σ []).
Proof.
  unfold request_method. intros Hm. split.
  - intros HT. unfold handler. by rewrite decide_False, HT.
  - intros HT HF. unfold handler. by rewrite decide_False, HT, HF.
Qed.

(** X3.  The handler never fails: whatever the event, the clock, the table
    and the mail service do, it returns a response.  The response carries
    the CORS headers and one of the five statuses 200, 204, 400, 429 and
    500. *)
Theorem handler_always_answers event env σ n :
  ∃ r, result (run env (handle' event) σ n) = inr r ∧
       headers r = corsHeaders ALLOWED_ORIGIN ∧
       statusCode r ∈ [200; 204; 400; 429; 500].
Proof.
  destruct (handler_early_answers event)
    as [(status & text & -> & Hstatus)|[[e ->]|(name & email & message & ->)]].
  - by exists (respond' status text).
  - exists (respond' 500 "Server error"). split_and!; [done..|]. cbn. set_solver.
  - rewrite run_serve. cbv zeta.
    destruct (run env (checkRateLimit TABLE LIMIT (ipFromEvent event)) σ n)
      as [[e|[|]] σ' tr]; cbn [result].
    + exists (respond' 500 "Server error"). split_and!; [done..|]. cbn. set_solver.
    + destruct (ses_answer env _) as [e|u]; eexists; (split_and!; [done..|]);
        cbn; set_solver.
    + exists (respond' 429 "Too many requests"). split_and!; [done..|].
      cbn. set_solver.
Qed.

(** X4.  A submission from an identity whose slot keys of the current
    window are all in the table is answered [429 Too many requests], after
    all [LIMIT] keys have been tried in vain: the table is left as it was
    and no email is sent. *)
Theorem used_up_quota_is_429 event name email message env σ n :
  submission' event name email message →
  no_ddb_fault env →
  Forall (λ k, is_Some (σ !! k))
         (slot_keys (ipFromEvent event) (window_of (clock env n)) LIMIT) →
  let o := run env (handle' event) σ n in
  result o = inr (respond' 429 "Too many requests") ∧
  final o = σ ∧
  mails (events o) = [] ∧
  put_keys (events o) =
  slot_keys (ipFromEvent event) (window_of (clock env n)) LIMIT.
Proof.
  intros Hsub Hnf Hall. cbv zeta.
  rewrite (handler_of_submission _ _ _ _ Hsub), run_serve. cbv zeta.
  pose proof (checkRateLimit_probes TABLE LIMIT env (ipFromEvent event) σ n Hnf)
    as Hp. cbv zeta in Hp.
  pose proof (checkRateLimit_mails TABLE LIMIT env (ipFromEvent event) σ n)
    as Hmails.
  destruct (list_find _ _) as [[j k]|] eqn:Hfind.
  { apply list_find_Some in Hfind as (Hk & Hnone & _).
    rewrite Forall_forall in Hall.
    destruct (Hall k) as [z Hz]; [by eapply list_elem_of_lookup_2|congruence]. }
  destruct (run env (checkRateLimit TABLE LIMIT (ipFromEvent event)) σ n)
    as [r σ' tr]. cbn [result final events] in *.
  destruct Hp as (-> & Hkeys & ->). by cbn [result final events].
Qed.

(** X5.  A submission from an identity that has a free slot in the current
    window, with the table and the mail service working, is answered
    [200 OK]: the first free slot key is created and exactly one email goes
    out, from [FROM_EMAIL] to the fixed recipient, with the sender's
    address to reply to, the sender's name in the subject and the message
    as its text. *)
Theorem accepted_submission_is_mailed event name email message env σ n j k :
  submission' event name email message →
  no_ddb_fault env → no_ses_fault env →
  list_find (λ k, σ !! k = None)
            (slot_keys (ipFromEvent event) (window_of (clock env n)) LIMIT)
  = Some (j, k) →
  let o := run env (handle' event) σ n in
  result o = inr (respond' 200 "OK") ∧
  final o = <[k := clock env (S n + 2 * j) / 1000 + 3700]> σ ∧
  mails (events o) =
  [ {| FromEmailAddress := FROM_EMAIL;
       ToAddresses := ["cloudcanvas.team@gmail.com"];
       ReplyToAddresses := [email];
       Subject := "New CloudCanvas message from " +:+ name;
       BodyText := message |} ].
Proof.
  intros Hsub Hnf Hses Hfind. cbv zeta.
  rewrite (handler_of_submission _ _ _ _ Hsub), run_serve. cbv zeta.
  pose proof (checkRateLimit_probes TABLE LIMIT env (ipFromEvent event) σ n Hnf)
    as Hp. cbv zeta in Hp. rewrite Hfind in Hp.
  pose proof (checkRateLimit_mails TABLE LIMIT env (ipFromEvent event) σ n)
    as Hmails.
  destruct (run env (checkRateLimit TABLE LIMIT (ipFromEvent event)) σ n)
    as [r σ' tr]. cbn [result final events] in *.
  destruct Hp as (-> & _ & ->). unfold ses_answer. rewrite Hses.
  cbn [result final events]. by rewrite mails_app, Hmails.
Qed.

(** X6.  When the mail service fails, a submission that got a slot is
    answered [500 Server error] and the error is logged; the slot key that
    was created for it stays in the table, so the failed attempt counts
    against the quota. *)
Theorem failed_mail_keeps_the_slot event name email message env σ n j k e :
  submission' event name email message →
  no_ddb_fault env → ses_down env e →
  list_find (λ k, σ !! k = None)
            (slot_keys (ipFromEvent event) (window_of (clock env n)) LIMIT)
  = Some (j, k) →
  let o := run env (handle' event) σ n in
  result o = inr (respond' 500 "Server error") ∧
  σ !! k = None ∧
  final o = <[k := clock env (S n + 2 * j) / 1000 + 3700]> σ ∧
  mails (events o) = [contact_mail FROM_EMAIL name email message] ∧
  ObsLog "contact error:" e ∈ events o.
Proof.
  intros Hsub Hnf Hses Hfind. cbv zeta.
  rewrite (handler_of_submission _ _ _ _ Hsub), run_serve. cbv zeta.
  pose proof (checkRateLimit_probes TABLE LIMIT env (ipFromEvent event) σ n Hnf)
    as Hp. cbv zeta in Hp. rewrite Hfind in Hp.
  pose proof (checkRateLimit_mails TABLE LIMIT env (ipFromEvent event) σ n)
    as Hmails.
  apply list_find_Some in Hfind as (_ & Hnone & _).
  destruct (run env (checkRateLimit TABLE LIMIT (ipFromEvent event)) σ n)
    as [r σ' tr]. cbn [result final events] in *.
  destruct Hp as (-> & _ & ->). unfold ses_answer. rewrite Hses.
  cbn [result final events]. split_and!; [done..| |].
  - by rewrite mails_app, Hmails.
  - apply elem_of_app. right. apply list_elem_of_further, list_elem_of_here.
Qed.

(** X14.  The handler writes to the table or sends an email only for a
    submission: a request that is not a preflight, on a configured handler,
    whose body parses, with the honeypot field empty and with a name, an
    email address and a message that are not empty after trimming. *)
Theorem only_submissions_have_effects event env σ n :
  put_keys (events (run env (handle' event) σ n)) ≠ [] ∨
  mails (events (run env (handle' event) σ n)) ≠ [] →
  ∃ name email message, submission' event name email message.
Proof.
  intros Heff.
  destruct (effects_need_a_valid_request _ _ _ _ _ _ _ _ _ _ _ _ _ Heff)
    as (Hm & Hconf & parsed & name & email & message & H).
  exists name, email, message. split_and!; [done..|]. by exists parsed.
Qed.

(** X15.  The handler sends at most one email for a request, and only
    after a conditional write of the same request has succeeded: the key of
    that write is a slot key of the caller in the current window and is in
    the table when the handler returns. *)
Theorem mail_only_after_a_slot event env σ n :
  let o := run env (handle' event) σ n in
  (length (mails (events o)) ≤ 1)%nat ∧
  (mails (events o) ≠ [] →
   ∃ cmd,
     ObsPut cmd (inr tt) ∈ events o ∧
     Item_pk cmd ∈ slot_keys (ipFromEvent event) (window_of (clock env n)) LIMIT ∧
     final o !! Item_pk cmd = Some (Item_ttl cmd)).
Proof.
  cbv zeta.
  destruct (handler_early_answers event)
    as [(status & text & -> & Hstatus)|[[e ->]|(name & email & message & ->)]].
  - cbn. split; [lia|done].
  - cbn. split; [lia|done].
  - rewrite run_serve. cbv zeta.
    pose proof (checkRateLimit_mails TABLE LIMIT env (ipFromEvent event) σ n)
      as Hmails.
    pose proof (checkRateLimit_true TABLE LIMIT env (ipFromEvent event) σ n)
      as Htrue.
    destruct (run env (checkRateLimit TABLE LIMIT (ipFromEvent event)) σ n)
      as [[e|[|]] σ' tr]; cbn [result final events] in *.
    + rewrite mails_app, Hmails. cbn. split; [lia|done].
    + destruct (Htrue eq_refl) as (cmd & Hin & Hkey & Hk).
      destruct (ses_answer env _) as [e|u]; cbn [result final events];
        rewrite mails_app, Hmails; cbn; (split; [lia|]); intros _;
        exists cmd; (split_and!; [|done..]); apply elem_of_app; by left.
    + rewrite Hmails. cbn. split; [lia|done].
Qed.

(** X16.  On a configured handler and a request other than a preflight: a
    body that parses to [null] makes the first field access throw, which
    is logged and answered [500 Server error]; a body that parses to any
    other value that is not an object (a boolean, a number, a string, an
    array) has none of the fields and is answered [400 Missing fields]. *)
Theorem body_that_is_no_object event parsed env σ n :
  request_method event ≠ Some "OPTIONS" →
  configured TABLE FROM_EMAIL →
  JSON_parse (request_body event) = inr parsed →
  (parsed = JNull →
   run env (handle' event) σ n =
   Outcome (inr (respond' 500 "Server error")) σ
           [ObsLog "contact error:" (Error "TypeError")]) ∧
  (trim "" = "" →
   match parsed with JNull | JObject _ => False | _ => True end →
   run env (handle' event) σ n =
   Outcome (inr (respond' 400 "Missing fields")) σ []).
Proof.
  unfold request_method, request_body, configured.
  intros Hm [HT HF] Hparse. split.
  - intros ->. unfold handler. by rewrite decide_False, HT, HF, Hparse.
  - intros Htrim Hshape.
    assert (∀ k, field' parsed k = inr "") as Hfield.
    { intros k. unfold field. destruct parsed; try done; cbn; by rewrite Htrim. }
    unfold handler. rewrite decide_False, HT, HF, Hparse by done.
    cbn [lift mbind prog_bind bind]. by rewrite !Hfield.
Qed.


Lemma run_of_submission event name email message env σ n :
  submission' event name email message →
  no_ddb_fault env → no_ses_fault env →
  let o := run env (handle' event) σ n in
  match list_find (λ k, σ !! k = None)
          (slot_keys (ipFromEvent event) (window_of (clock env n)) LIMIT) with
  | Some (j, k) =>
      result o = inr (respond' 200 "OK") ∧ ∃ ttl, final o = <[k := ttl]> σ
  | None =>
      result o = inr (respond' 429 "Too many requests") ∧ final o = σ
  end.
Proof.
  intros Hsub Hnf Hses. cbv zeta.
  rewrite (handler_of_submission _ _ _ _ Hsub), run_serve. cbv zeta.
  pose proof (checkRateLimit_probes TABLE LIMIT env (ipFromEvent event) σ n Hnf)
    as Hp. cbv zeta in Hp.
  destruct (run env (checkRateLimit TABLE LIMIT (ipFromEvent event)) σ n)
    as [r σ' tr]. cbn [result final events] in *.
  destruct (list_find _ _) as [[j k]|].
  - destruct Hp as (-> & _ & ->). unfold ses_answer. rewrite Hses.
    cbn [result final]. split; [done|]. by eexists.
  - by destruct Hp as (-> & _ & ->).
Qed.

Lemma replay_S env (h : Event → prog Response) ev evs σ n :
  fst (replay env h (ev :: evs) σ n) =
  sum_map id statusCode (result (run env (h ev) σ n))
  :: fst (replay env h evs (final (run env (h ev) σ n))
                 (n + length (events (run env (h ev) σ n)))).
Proof. cbn [replay]. by destruct (replay _ _ _ _ _). Qed.

Lemma replay_filled event name email message env w k σ n j :
  submission' event name email message →
  no_ddb_fault env → no_ses_fault env →
  (∀ m, window_of (clock env m) = w) →
  filled σ (slot_keys (ipFromEvent event) w LIMIT) j →
  (j ≤ Z.to_nat LIMIT)%nat →
  fst (replay env handle' (replicate k event) σ n) =
  replicate (k `min` (Z.to_nat LIMIT - j)) (inr 200) ++
  replicate (k - (Z.to_nat LIMIT - j)) (inr 429).
Proof.
  intros Hsub Hnf Hses Hw. revert σ n j.
  induction k as [|k IH]; intros σ n j Hfill Hj; [done|].
  cbn [replicate]. rewrite replay_S.
  pose proof (run_of_submission event name email message env σ n Hsub Hnf Hses)
    as Hp. cbv zeta in Hp. rewrite Hw in Hp.
  destruct (decide (j < Z.to_nat LIMIT)%nat) as [Hlt|Hge].
  - destruct (list_find_filled σ (slot_keys (ipFromEvent event) w LIMIT) j Hfill)
      as (key & Hkey & Hfind).
    { by rewrite slot_keys_length. }
    rewrite Hfind in Hp. destruct Hp as (-> & ttl & ->).
    rewrite (IH _ _ (S j)); [|by apply filled_next; [apply slot_keys_NoDup|..]|lia].
    replace (S k `min` (Z.to_nat LIMIT - j))%nat
      with (S (k `min` (Z.to_nat LIMIT - S j)))%nat by lia.
    replace (S k - (Z.to_nat LIMIT - j))%nat
      with (k - (Z.to_nat LIMIT - S j))%nat by lia.
    done.
  - assert (j = Z.to_nat LIMIT) as -> by lia.
    rewrite list_find_full in Hp by (by rewrite slot_keys_length).
    destruct Hp as (-> & ->).
    rewrite (IH _ _ (Z.to_nat LIMIT)) by done.
    replace (Z.to_nat LIMIT - Z.to_nat LIMIT)%nat with 0%nat by lia.
    rewrite !Nat.min_0_r, !Nat.sub_0_r. done.
Qed.

(** X20.  The same submission sent [k] times in a row within one window,
    with the table and the mail service working and none of the caller's
    slot keys of that window in the table at the start: the first [LIMIT]
    requests are answered 200 and all the requests after them 429. *)
Theorem submissions_are_served_then_limited
    event name email message env w k σ n :
  submission' event name email message →
  no_ddb_fault env → no_ses_fault env →
  (∀ m, window_of (clock env m) = w) →
  Forall (λ key, σ !! key = None) (slot_keys (ipFromEvent event) w LIMIT) →
  fst (replay env handle' (replicate k event) σ n) =
  replicate (k `min` Z.to_nat LIMIT) (inr 200) ++
  replicate (k - Z.to_nat LIMIT) (inr 429).
Proof.
  intros Hsub Hnf Hses Hw Hfree.
  rewrite (replay_filled event name email message env w k σ n 0
             Hsub Hnf Hses Hw); [|by split|lia].
  by rewrite Nat.sub_0_r.
Qed.

(** ** Requests of one identity *)





End HandlerAnswers.

(* ===================================================================== *)
(** * The further properties at work *)

Lemma calm_no_ses_fault ms : no_ses_fault (calm ms).
Proof. by intros n. Qed.

Lemma calm_window m : window_of (clock (calm t0) m) = 472222.
Proof. reflexivity. Qed.

Lemma contact_is_a_submission :
  submission (Some "rate-limits") (Some "noreply@example.org") Z
             (λ x, bool_decide (x ≠ 0)) pretty scenario_parse scenario_trim
             contact "Danyar" "danyar@example.com" "Hello".
Proof.
  split_and!; [by vm_compute|by split|].
  exists (JObject (prod_map id JString <$> message_fields)).
  split_and!; by vm_compute.
Qed.

(** A preflight on a handler without configuration, with a garbled body. *)
Lemma preflight_is_answered_at_once_witness :
  run (calm t0)
      (handler None 5 None "https://example.org" Z (λ x, bool_decide (x ≠ 0))
               pretty scenario_parse scenario_trim preflight) ∅ 0 =
  Outcome (inr (response 204 "https://example.org" "")) ∅ [].
Proof.
  refine (proj2 (preflight_is_answered_at_once None 5 None "https://example.org"
    Z (λ x, bool_decide (x ≠ 0)) pretty scenario_parse scenario_trim preflight
    (calm t0) ∅ 0 _)).
  reflexivity.
Defined.

(** A handler without table name, and one without sender. *)
Lemma missing_configuration_is_reported_witness :
  run (calm t0)
      (handler None 5 None "https://example.org" Z (λ x, bool_decide (x ≠ 0))
               pretty scenario_parse scenario_trim garbled) ∅ 0 =
  Outcome (inr (response 500 "https://example.org" "RATE_TABLE not set")) ∅ [] ∧
  run (calm t0)
      (handler (Some "rate-limits") 5 (Some "") "https://example.org" Z
               (λ x, bool_decide (x ≠ 0)) pretty scenario_parse scenario_trim
               garbled) ∅ 0 =
  Outcome (inr (response 500 "https://example.org" "FROM_EMAIL not set")) ∅ [].
Proof.
  split.
  - refine (proj1 (missing_configuration_is_reported None 5 None
      "https://example.org" Z (λ x, bool_decide (x ≠ 0)) pretty scenario_parse
      scenario_trim garbled (calm t0) ∅ 0 _) _).
    + vm_compute. discriminate.
    + reflexivity.
  - refine (proj2 (missing_configuration_is_reported (Some "rate-limits") 5
      (Some "") "https://example.org" Z (λ x, bool_decide (x ≠ 0)) pretty
      scenario_parse scenario_trim garbled (calm t0) ∅ 0 _) _ _).
    + vm_compute. discriminate.
    + reflexivity.
    + reflexivity.
Defined.

(** The only slot of the hour is taken. *)
Lemma used_up_quota_is_429_witness :
  let σ : gmap string Z := {[ slot_key caller 472222 1 := 0 ]} in
  let o := run (calm t0) (scenario_handler 1 contact) σ 0 in
  result o = inr (response 429 "https://example.org" "Too many requests") ∧
  final o = σ ∧ mails (events o) = [] ∧
  put_keys (events o) =
  slot_keys (ipFromEvent contact) (window_of (clock (calm t0) 0)) 1.
Proof.
  intros σ o.
  apply (used_up_quota_is_429 (Some "rate-limits") 1 (Some "noreply@example.org")
           "https://example.org" Z (λ x, bool_decide (x ≠ 0)) pretty
           scenario_parse scenario_trim contact
           "Danyar" "danyar@example.com" "Hello" (calm t0) σ 0).
  - apply contact_is_a_submission.
  - apply calm_no_fault.
  - apply Forall_singleton. exists 0. by vm_compute.
Defined.

(** The first request of the hour. *)
Lemma accepted_submission_is_mailed_witness :
  let o := run (calm t0) (scenario_handler 5 contact) ∅ 0 in
  result o = inr (response 200 "https://example.org" "OK") ∧
  final o = <[slot_key caller 472222 1 := clock (calm t0) (1 + 2 * 0) / 1000 + 3700]> ∅ ∧
  mails (events o) =
  [ {| FromEmailAddress := Some "noreply@example.org";
       ToAddresses := ["cloudcanvas.team@gmail.com"];
       ReplyToAddresses := ["danyar@example.com"];
       Subject := "New CloudCanvas message from " +:+ "Danyar";
       BodyText := "Hello" |} ].
Proof.
  intros o.
  apply (accepted_submission_is_mailed (Some "rate-limits") 5
           (Some "noreply@example.org") "https://example.org" Z
           (λ x, bool_decide (x ≠ 0)) pretty scenario_parse scenario_trim contact
           "Danyar" "danyar@example.com" "Hello" (calm t0) ∅ 0 0%nat
           (slot_key caller 472222 1)).
  - apply contact_is_a_submission.
  - apply calm_no_fault.
  - apply calm_no_ses_fault.
  - by vm_compute.
Defined.

(** The mail service is down. *)
Lemma failed_mail_keeps_the_slot_witness :
  let env := mail_outage t0 (Error "MessageRejected") in
  let o := run env (scenario_handler 5 contact) ∅ 0 in
  result o = inr (response 500 "https://example.org" "Server error") ∧
  (∅ : gmap string Z) !! slot_key caller 472222 1 = None ∧
  final o = <[slot_key caller 472222 1 := clock env (1 + 2 * 0) / 1000 + 3700]> ∅ ∧
  mails (events o) =
  [contact_mail (Some "noreply@example.org") "Danyar" "danyar@example.com" "Hello"] ∧
  ObsLog "contact error:" (Error "MessageRejected") ∈ events o.
Proof.
  intros env o.
  apply (failed_mail_keeps_the_slot (Some "rate-limits") 5
           (Some "noreply@example.org") "https://example.org" Z
           (λ x, bool_decide (x ≠ 0)) pretty scenario_parse scenario_trim contact
           "Danyar" "danyar@example.com" "Hello" env ∅ 0 0%nat
           (slot_key caller 472222 1) (Error "MessageRejected")).
  - apply contact_is_a_submission.
  - by intros m.
  - by intros m.
  - by vm_compute.
Defined.

(** The address of the HTTP API shape is taken before the other. *)
Lemma ipFromEvent_prefers_http_witness :
  ipFromEvent proxied = "198.51.100.7".
Proof.
  refine (proj1 (proj2 (ipFromEvent_prefers_http proxied)) "198.51.100.7" _ _).
  - reflexivity.
  - discriminate.
Defined.

(** Keys of another caller do not count. *)
Lemma identities_are_independent_witness :
  let extra : gmap string Z := {[ slot_key "198.51.100.7" 472222 1 := 0 ]} in
  let o := run (calm t0) (checkRateLimit (Some "rate-limits") 1 caller) ∅ 0 in
  let o' := run (calm t0) (checkRateLimit (Some "rate-limits") 1 caller)
                (extra ∪ ∅) 0 in
  result o' = result o ∧ events o' = events o ∧ final o' = extra ∪ final o.
Proof.
  intros extra o o'.
  apply (identities_are_independent (Some "rate-limits") 1 (calm t0) caller ∅
           extra "198.51.100.7" 0).
  - discriminate.
  - intros k [z Hz]. apply lookup_singleton_Some in Hz as [<- _].
    by exists 472222, 1.
Defined.

(** A key claimed at [t0] and tried again a minute later. *)
Lemma consume_claims_a_key_once_witness :
  let key := slot_key caller 472222 1 in
  let o1 := run (calm t0) (consume (Some "rate-limits") key 3700) ∅ 0 in
  let o2 := run (calm (t0 + 60000)) (consume (Some "rate-limits") key 3700)
                (final o1) 2 in
  result o1 = inr true ∧
  final o1 = <[key := clock (calm t0) 0 / 1000 + 3700]> ∅ ∧
  result o2 = inr false ∧ final o2 = final o1.
Proof.
  intros key o1 o2.
  apply (consume_claims_a_key_once (Some "rate-limits") (calm t0)
           (calm (t0 + 60000)) key 3700 3700 ∅ (final o1) 0 2).
  - reflexivity.
  - reflexivity.
  - apply lookup_empty.
  - reflexivity.
Defined.

(** Three calls in a row with a limit of two. *)
Lemma quota_is_served_then_denied_witness :
  fst (acquire (Some "rate-limits") 2 (calm t0) caller 3 ∅ 0) =
  replicate (3 `min` Z.to_nat 2) (inr true) ++
  replicate (3 - Z.to_nat 2) (inr false).
Proof.
  apply (quota_is_served_then_denied (Some "rate-limits") 2 (calm t0) caller
           472222 3 ∅ 0).
  - apply calm_no_fault.
  - apply calm_window.
  - apply Forall_forall. intros key _. apply lookup_empty.
Defined.

(** In the race for one slot the call that lost was denied rightly. *)
Lemma denial_means_the_quota_is_used_witness :
  wins caller 472222 (pool_calls race) = Z.to_nat 1 ∧
  (Z.to_nat 1 < length (filter (λ x, x = caller) [caller; caller]))%nat.
Proof.
  apply (denial_means_the_quota_is_used (Some "rate-limits") 1 ∅ [caller; caller]
           [Tick 0 t0 None; Tick 1 t0 None; Tick 0 t0 None; Tick 1 t0 None;
            Tick 1 t0 None; Tick 0 t0 None] caller 472222 0).
  - repeat constructor.
  - apply Forall_forall. intros key _. apply lookup_empty.
  - by vm_compute.
Defined.

(** The request that wrote to the table was a submission. *)
Lemma only_submissions_have_effects_witness :
  ∃ name email message,
    submission (Some "rate-limits") (Some "noreply@example.org") Z
               (λ x, bool_decide (x ≠ 0)) pretty scenario_parse scenario_trim
               contact name email message.
Proof.
  apply (only_submissions_have_effects (Some "rate-limits") 5
           (Some "noreply@example.org") "https://example.org" Z
           (λ x, bool_decide (x ≠ 0)) pretty scenario_parse scenario_trim contact
           (calm t0) ∅ 0).
  left. by vm_compute.
Defined.

(** The email of the first request of the hour came after its slot. *)
Lemma mail_only_after_a_slot_witness :
  let o := run (calm t0) (scenario_handler 5 contact) ∅ 0 in
  ∃ cmd,
    ObsPut cmd (inr tt) ∈ events o ∧
    Item_pk cmd ∈ slot_keys (ipFromEvent contact) (window_of (clock (calm t0) 0)) 5 ∧
    final o !! Item_pk cmd = Some (Item_ttl cmd).
Proof.
  intros o.
  refine (proj2 (mail_only_after_a_slot (Some "rate-limits") 5
           (Some "noreply@example.org") "https://example.org" Z
           (λ x, bool_decide (x ≠ 0)) pretty scenario_parse scenario_trim contact
           (calm t0) ∅ 0) _).
  by vm_compute.
Defined.

(** The bodies [null] and [[]]. *)
Lemma body_that_is_no_object_witness :
  run (calm t0)
      (handler (Some "rate-limits") 5 (Some "noreply@example.org")
               "https://example.org" Z (λ x, bool_decide (x ≠ 0)) pretty
               value_parse scenario_trim (post_from (Some caller) (Some "null")))
      ∅ 0 =
  Outcome (inr (response 500 "https://example.org" "Server error")) ∅
          [ObsLog "contact error:" (Error "TypeError")] ∧
  run (calm t0)
      (handler (Some "rate-limits") 5 (Some "noreply@example.org")
               "https://example.org" Z (λ x, bool_decide (x ≠ 0)) pretty
               value_parse scenario_trim (post_from (Some caller) (Some "[]")))
      ∅ 0 =
  Outcome (inr (response 400 "https://example.org" "Missing fields")) ∅ [].
Proof.
  split.
  - refine (proj1 (body_that_is_no_object (Some "rate-limits") 5
      (Some "noreply@example.org") "https://example.org" Z
      (λ x, bool_decide (x ≠ 0)) pretty value_parse scenario_trim
      (post_from (Some caller) (Some "null")) JNull (calm t0) ∅ 0 _ _ _) _).
    + by vm_compute.
    + by split.
    + by vm_compute.
    + reflexivity.
  - refine (proj2 (body_that_is_no_object (Some "rate-limits") 5
      (Some "noreply@example.org") "https://example.org" Z
      (λ x, bool_decide (x ≠ 0)) pretty value_parse scenario_trim
      (post_from (Some caller) (Some "[]")) (JArray []) (calm t0) ∅ 0 _ _ _) _ _).
    + by vm_compute.
    + by split.
    + by vm_compute.
    + by vm_compute.
    + exact I.
Defined.

(** The key written at [t0] is due 900 seconds after the hour is over. *)
Lemma key_outlives_its_window_witness :
  3600 * (window_of (clock (calm t0) 0) + 1) + 100 ≤
  Item_ttl (consume_cmd (Some "rate-limits") (slot_key caller 472222 1) t0 3700).
Proof.
  apply (key_outlives_its_window (Some "rate-limits") 1 (calm t0) caller ∅ 0
           _ (inr tt)).
  - intros a b _. reflexivity.
  - vm_compute. do 2 apply list_elem_of_further. apply list_elem_of_here.
Defined.

(** Six requests in a row with a limit of five. *)
Lemma submissions_are_served_then_limited_witness :
  fst (replay (calm t0) (scenario_handler 5) (replicate 6 contact) ∅ 0) =
  replicate (6 `min` Z.to_nat 5) (inr 200) ++
  replicate (6 - Z.to_nat 5) (inr 429).
Proof.
  apply (submissions_are_served_then_limited (Some "rate-limits") 5
           (Some "noreply@example.org") "https://example.org" Z
           (λ x, bool_decide (x ≠ 0)) pretty scenario_parse scenario_trim contact
           "Danyar" "danyar@example.com" "Hello" (calm t0) 472222 6 ∅ 0).
  - apply contact_is_a_submission.
  - apply calm_no_fault.
  - apply calm_no_ses_fault.
  - apply calm_window.
  - apply Forall_forall. intros key _. apply lookup_empty.
Defined.

(** ** Requests without an address *)



